(** * interval_map: a range-compressing map over [std::map]

    Shallow embedding of [src/interval_map.h] and the properties of
    [interval_map::assign] and [interval_map::operator[]].

    - [std::map<K,V>] is modelled as an association list kept in ascending
      key order; an iterator is a position in that list ([begin()] is
      position 0, [end()] is the length).
    - Dereferencing or decrementing an iterator where C++ leaves the
      behaviour undefined is a failure ([None]).
    - The two member functions are written in a state-and-failure monad
      over the object's two fields.
    - Keys are instantiated at the integers, as in [IntervalMapTest]
      ([interval_map<int, char>]); only [<] is ever applied to keys, so no
      arithmetic wrap-around is involved.  Values are any type with
      decidable equality (the [==] the template requires of [V]). *)

From Stdlib Require Import ZArith List Bool Lia Ascii.
Import ListNotations.
Local Open Scope Z_scope.

(** ** The value type's [operator==] *)

Class EqDec (V : Type) := V_eq_dec : forall x y : V, {x = y} + {x <> y}.

Definition V_eqb {V : Type} `{EqDec V} (x y : V) : bool :=
  if V_eq_dec x y then true else false.

#[export] Instance EqDec_ascii : EqDec ascii := ascii_dec.

(** ** Keys and iterators *)

Abbreviation K := Z.
Abbreviation iterator := nat.

Section StdMap.
Context {V : Type}.

(** [std::map<K,V>]: entries in ascending key order. *)
Definition std_map : Type := list (K * V).

Definition map_begin (m : std_map) : iterator := 0%nat.
Definition map_end (m : std_map) : iterator := length m.

Definition map_empty (m : std_map) : bool :=
  match m with
  | [] => true
  | _ :: _ => false
  end.

(** [m.upper_bound(key)]: the first position whose key is greater than
    [key], or [end()]. *)
Fixpoint upper_bound (m : std_map) (key : K) : iterator :=
  match m with
  | [] => 0%nat
  | (k, _) :: t => if key <? k then 0%nat else S (upper_bound t key)
  end.

(** [*it]: undefined at [end()]. *)
Definition deref (m : std_map) (it : iterator) : option (K * V) :=
  nth_error m it.

(** [it--] and [std::prev(it)]: undefined at [begin()]. *)
Definition dec (it : iterator) : option iterator :=
  match it with
  | O => None
  | S it' => Some it'
  end.

(** [it++]: undefined at [end()]. *)
Definition inc (m : std_map) (it : iterator) : option iterator :=
  if (it <? map_end m)%nat then Some (S it) else None.

(** [m.insert(std::make_pair(k, v))]: the entry goes to its place in key
    order; when the key is already present the map is left as it is. *)
Fixpoint map_insert (m : std_map) (kv : K * V) : std_map :=
  match m with
  | [] => [kv]
  | e :: t =>
      if fst kv <? fst e then kv :: m
      else if fst e <? fst kv then e :: map_insert t kv
      else m
  end.

(** [m.insert(hint, kv)]: the hint only guides the search. *)
Definition map_insert_hint (m : std_map) (hint : iterator) (kv : K * V)
  : std_map :=
  map_insert m kv.

(** [m.erase(first, last)]: removes the positions [first, last) and
    returns the position following the last removed entry; undefined
    unless [first <= last <= end()]. *)
Definition map_erase (m : std_map) (first last : iterator)
  : option (std_map * iterator) :=
  if ((first <=? last) && (last <=? map_end m))%nat
  then Some (firstn first m ++ skipn last m, first)
  else None.

(** The loop of [assign]:
    [while (keyBegin < itStart->first && itStart != m_map.begin()) itStart--;]
    It recurses on the position, which only moves backward. *)
Fixpoint walk_back (m : std_map) (keyBegin : K) (itStart : iterator)
  {struct itStart} : option iterator :=
  match deref m itStart with
  | None => None
  | Some e =>
      if (keyBegin <? fst e) && negb (itStart =? map_begin m)%nat
      then match itStart with
           | O => None
           | S it' => walk_back m keyBegin it'
           end
      else Some itStart
  end.

End StdMap.

Arguments std_map V : clear implicits.

(** ** The class [interval_map<K,V>] *)

Record interval_map (V : Type) : Type := Build_interval_map
  { m_valBegin : V;
    m_map : std_map V }.

Arguments Build_interval_map {V} _ _.
Arguments m_valBegin {V} _.
Arguments m_map {V} _.

(** Member functions run on the object and may hit undefined behaviour. *)
Definition M (V A : Type) : Type :=
  interval_map V -> option (A * interval_map V).

Section Monad.
Context {V : Type}.

Definition ret {A : Type} (a : A) : M V A := fun s => Some (a, s).

Definition bind {A B : Type} (c : M V A) (f : A -> M V B) : M V B :=
  fun s =>
    match c s with
    | None => None
    | Some (a, s') => f a s'
    end.

Definition lift {A : Type} (o : option A) : M V A :=
  fun s =>
    match o with
    | None => None
    | Some a => Some (a, s)
    end.

Definition get_valBegin : M V V := fun s => Some (m_valBegin s, s).
Definition get_map : M V (std_map V) := fun s => Some (m_map s, s).
Definition put_map (m : std_map V) : M V unit :=
  fun s => Some (tt, Build_interval_map (m_valBegin s) m).

Definition when (b : bool) (c : M V unit) : M V unit :=
  if b then c else ret tt.

Definition exec {A : Type} (c : M V A) (s : interval_map V)
  : option (interval_map V) :=
  match c s with
  | None => None
  | Some (_, s') => Some s'
  end.

Definition eval {A : Type} (c : M V A) (s : interval_map V) : option A :=
  match c s with
  | None => None
  | Some (a, _) => Some a
  end.

End Monad.

Declare Scope imap_scope.
Delimit Scope imap_scope with imap.
Notation "x <- c ;; k" := (bind c (fun x => k))
  (at level 61, c at next level, right associativity) : imap_scope.
Notation "' pat <- c ;; k" := (bind c (fun x => match x with pat => k end))
  (at level 61, pat pattern, c at next level, right associativity)
  : imap_scope.
Notation "c ;; k" := (bind c (fun _ => k))
  (at level 61, right associativity) : imap_scope.
Local Open Scope imap_scope.

Section IntervalMap.
Context {V : Type} `{EqDec V}.

(** [interval_map(V_forward&& val)] *)
Definition construct (val : V) : interval_map V :=
  Build_interval_map val [].

(** [m_map.insert(kv)] and [m_map.insert(hint, kv)] on the member. *)
Definition m_insert (kv : K * V) : M V unit :=
  m <- get_map ;; put_map (map_insert m kv).

Definition m_insert_hint (hint : iterator) (kv : K * V) : M V unit :=
  m <- get_map ;; put_map (map_insert_hint m hint kv).

(** [m_map.erase(first, last)] on the member. *)
Definition m_erase (first last : iterator) : M V iterator :=
  m <- get_map ;;
  '(m', it) <- lift (map_erase m first last) ;;
  put_map m' ;;
  ret it.

(** [void assign(K const& keyBegin, K const& keyEnd, V_forward&& val)] *)
Definition assign (keyBegin keyEnd : K) (val : V) : M V unit :=
  if negb (keyBegin <? keyEnd) then ret tt
  else
    m <- get_map ;;
    if map_empty m then
      m_insert (keyBegin, val) ;;
      d <- get_valBegin ;;
      m_insert (keyEnd, d)
    else
      d <- get_valBegin ;;
      let itEnd := upper_bound m keyEnd in
      '(itStart, valEnd) <-
        (if negb (itEnd =? map_begin m)%nat
         then itStart <- lift (dec itEnd) ;;
              e <- lift (deref m itStart) ;;
              ret (itStart, snd e)
         else ret (itEnd, d)) ;;
      itStart <- lift (walk_back m keyBegin itStart) ;;
      e <- lift (deref m itStart) ;;
      itStart <-
        (if (fst e <? keyBegin) && negb (itStart =? itEnd)%nat
         then lift (inc m itStart)
         else ret itStart) ;;
      differsFromPreviousValue <-
        (if negb (itStart =? map_begin m)%nat
         then it' <- lift (dec itStart) ;;
              p <- lift (deref m it') ;;
              ret (negb (V_eqb (snd p) val))
         else ret true) ;;
      let differsFromDefault :=
        negb ((itStart =? map_begin m)%nat && V_eqb val d) in
      it <- m_erase itStart itEnd ;;
      when (differsFromPreviousValue && differsFromDefault)
           (m_insert_hint it (keyBegin, val)) ;;
      when (negb (V_eqb valEnd val))
           (m_insert_hint it (keyEnd, valEnd)).

(** [const V& operator[](K const& key) const] *)
Definition lookup (key : K) : M V V :=
  m <- get_map ;;
  let it := upper_bound m key in
  if (it =? map_begin m)%nat then get_valBegin
  else
    it' <- lift (dec it) ;;
    e <- lift (deref m it') ;;
    ret (snd e).

End IntervalMap.

(** ** The scenario of [IntervalMapTest] *)

Definition imap0 : interval_map ascii := construct "A"%char.

Definition after (s : option (interval_map ascii))
  (keyBegin keyEnd : K) (val : ascii) : option (interval_map ascii) :=
  match s with
  | None => None
  | Some s' => exec (assign keyBegin keyEnd val) s'
  end.

Definition imap1 := after (Some imap0) 5 10 "B"%char.
Definition imap2 := after imap1 7 12 "C"%char.
Definition imap3 := after imap2 12 15 "D"%char.
Definition imap4 := after imap3 5 7 "B"%char.
Definition imap5 := after imap4 10 12 "A"%char.

(** The object after the first call of the scenario. *)
Definition imap_B : interval_map ascii :=
  Build_interval_map "A"%char [(5, "B"%char); (10, "A"%char)].

(** A fresh object assigned its own default value once. *)
Definition imap_AA : interval_map ascii :=
  Build_interval_map "A"%char [(1, "A"%char); (2, "A"%char)].

Definition at_key (s : option (interval_map ascii)) (key : K)
  : option ascii :=
  match s with
  | None => None
  | Some s' => eval (lookup key) s'
  end.

(** ** Specification-side notions *)

Section Notions.
Context {V : Type}.

(** The class invariant of [std::map]: keys strictly ascending. *)
Fixpoint ordered (m : std_map V) : Prop :=
  match m with
  | [] => True
  | e :: t => Forall (fun e' => fst e < fst e') t /\ ordered t
  end.

(** [m.lower_bound(key)]: the first position whose key is not less than
    [key]. *)
Fixpoint lower_bound (m : std_map V) (key : K) : iterator :=
  match m with
  | [] => 0%nat
  | (k, _) :: t => if k <? key then S (lower_bound t key) else 0%nat
  end.

(** The value carried by the last entry of a run of boundaries that
    follows a region of value [d]. *)
Fixpoint last_val (d : V) (m : std_map V) : V :=
  match m with
  | [] => d
  | (_, v) :: t => last_val v t
  end.

(** The step function a table denotes: the value of the last boundary
    met before the first key greater than [key]. *)
Fixpoint value_at (d : V) (m : std_map V) (key : K) : V :=
  match m with
  | [] => d
  | (k, v) :: t => if key <? k then d else value_at v t key
  end.

(** The value that applies immediately below [key]: that of the last
    boundary strictly before [key], or [d] when there is none. *)
Fixpoint value_below (d : V) (m : std_map V) (key : K) : V :=
  match m with
  | [] => d
  | (k, v) :: t => if k <? key then value_below v t key else d
  end.

(** The table without the boundaries whose key lies in
    [[keyBegin, keyEnd]]. *)
Definition remove_span (m : std_map V) (keyBegin keyEnd : K) : std_map V :=
  filter (fun e => negb ((keyBegin <=? fst e) && (fst e <=? keyEnd))) m.

(** A boundary is stored at [key]. *)
Definition has_boundary (m : std_map V) (key : K) : Prop :=
  exists v, In (key, v) m.

(** No boundary repeats the value in force just before it; the region
    before the first boundary has value [d]. *)
Fixpoint canonical (d : V) (m : std_map V) : Prop :=
  match m with
  | [] => True
  | (_, v) :: t => v <> d /\ canonical v t
  end.

End Notions.

Section Reachable.
Context {V : Type} `{EqDec V}.

(** The table [assign] leaves behind on a non-empty ordered table. *)
Definition assign_table (d : V) (m : std_map V) (keyBegin keyEnd : K)
  (val : V) : std_map V :=
  let itStart := lower_bound m keyBegin in
  let itEnd := upper_bound m keyEnd in
  let valEnd := last_val d (firstn itEnd m) in
  firstn itStart m
    ++ (if V_eqb (last_val d (firstn itStart m)) val then []
        else [(keyBegin, val)])
    ++ (if V_eqb valEnd val then [] else [(keyEnd, valEnd)])
    ++ skipn itEnd m.

(** States an object can be in: freshly constructed, then any number of
    [assign] calls. *)
Inductive reachable : interval_map V -> Prop :=
| reachable_construct (val : V) : reachable (construct val)
| reachable_assign (s s' : interval_map V) (keyBegin keyEnd : K) (val : V) :
    reachable s ->
    exec (assign keyBegin keyEnd val) s = Some s' ->
    reachable s'.

End Reachable.

Section Callers.
Context {V : Type} `{EqDec V}.

(** A caller that makes [assign] calls one after another on the same
    object, as [IntervalMapTest] does. *)
Fixpoint assign_all (calls : list (K * K * V)) : M V unit :=
  match calls with
  | [] => ret tt
  | (keyBegin, keyEnd, val) :: rest =>
      assign keyBegin keyEnd val ;; assign_all rest
  end.

(** What a key maps to once each call, in order, has overwritten the
    range it names on the function [f]. *)
Fixpoint written (f : K -> V) (calls : list (K * K * V)) (key : K) : V :=
  match calls with
  | [] => f key
  | (keyBegin, keyEnd, val) :: rest =>
      written
        (fun k => if (keyBegin <=? k) && (k <? keyEnd) then val else f k)
        rest key
  end.

End Callers.

(** * Properties *)

(** ** The operations on small inputs *)

Example upper_bound_imap_B :
  List.map (upper_bound (m_map imap_B)) [4; 5; 9; 10; 11]
  = [0; 1; 1; 2; 2]%nat.
Proof. reflexivity. Qed.

Example lower_bound_imap_B :
  List.map (lower_bound (m_map imap_B)) [4; 5; 9; 10; 11]
  = [0; 0; 1; 1; 2]%nat.
Proof. reflexivity. Qed.

Example walk_back_imap_B :
  walk_back (m_map imap_B) 7 1 = Some 0%nat /\
  walk_back (m_map imap_B) 3 1 = Some 0%nat /\
  walk_back (m_map imap_B) 10 1 = Some 1%nat /\
  walk_back (m_map imap_B) 7 2 = None.
Proof. repeat split. Qed.

Example map_insert_present :
  map_insert (m_map imap_B) (10, "Z"%char) = m_map imap_B.
Proof. reflexivity. Qed.

Example map_erase_imap_B :
  map_erase (m_map imap_B) 1 2 = Some ([(5, "B"%char)], 1%nat) /\
  map_erase (m_map imap_B) 2 1 = None.
Proof. split; reflexivity. Qed.

Example assign_overlap_left :
  exec (assign 3 7 "C"%char) imap_B
  = Some (Build_interval_map "A"%char
            [(3, "C"%char); (7, "B"%char); (10, "A"%char)]).
Proof. reflexivity. Qed.

Example assign_back_to_default :
  exec (assign 5 10 "A"%char) imap_B = Some (construct "A"%char).
Proof. reflexivity. Qed.

(** Assigning the default value again to the state [{1:A, 2:A}] empties
    the table, and once more brings the two boundaries back. *)
Example assign_default_alternates :
  exec (assign 1 2 "A"%char) imap_AA = Some (construct "A"%char) /\
  exec (assign 1 2 "A"%char) (construct "A"%char) = Some imap_AA.
Proof. split; reflexivity. Qed.

Section Facts.
Context {V : Type} `{EqDec V}.
Implicit Types (m t : std_map V) (d v val : V) (k key : K) (e : K * V).
Implicit Types (i j : iterator) (s : interval_map V).

(** ** Equality test on values *)

Lemma V_eqb_true_iff v1 v2 : V_eqb v1 v2 = true <-> v1 = v2.
Proof.
  unfold V_eqb. destruct (V_eq_dec v1 v2); split; congruence.
Qed.

Lemma V_eqb_spec v1 v2 : reflect (v1 = v2) (V_eqb v1 v2).
Proof.
  unfold V_eqb. destruct (V_eq_dec v1 v2); constructor; assumption.
Qed.

Lemma V_eqb_sym v1 v2 : V_eqb v1 v2 = V_eqb v2 v1.
Proof.
  unfold V_eqb.
  destruct (V_eq_dec v1 v2), (V_eq_dec v2 v1); congruence.
Qed.

(** ** Positions in an ordered table *)

Lemma upper_bound_le m key : (upper_bound m key <= length m)%nat.
Proof.
  induction m as [|[k v] t IH]; simpl; [lia|].
  destruct (key <? k); simpl; lia.
Qed.

Lemma lower_bound_le m key : (lower_bound m key <= length m)%nat.
Proof.
  induction m as [|[k v] t IH]; simpl; [lia|].
  destruct (k <? key); simpl; lia.
Qed.

Lemma lower_le_upper m keyBegin keyEnd :
  keyBegin <= keyEnd ->
  (lower_bound m keyBegin <= upper_bound m keyEnd)%nat.
Proof.
  intros Hlt. induction m as [|[k v] t IH]; simpl; [lia|].
  destruct (Z.ltb_spec k keyBegin), (Z.ltb_spec keyEnd k); lia.
Qed.

Lemma ordered_tail e t : ordered (e :: t) -> ordered t.
Proof. simpl. tauto. Qed.

Lemma ordered_head_lt e t e' : ordered (e :: t) -> In e' t -> fst e < fst e'.
Proof.
  simpl. intros [Hall _] Hin.
  rewrite Forall_forall in Hall. auto.
Qed.

Lemma nth_lower_bound m key i e :
  ordered m -> nth_error m i = Some e ->
  ((i < lower_bound m key)%nat <-> fst e < key).
Proof.
  revert i. induction m as [|[k v] t IH]; intros i Hord Hnth.
  - destruct i; discriminate.
  - destruct i as [|j]; simpl in *.
    + injection Hnth as <-. simpl.
      destruct (Z.ltb_spec k key); lia.
    + pose proof (ordered_head_lt (k, v) t e Hord (nth_error_In _ _ Hnth)) as Hk.
      simpl in Hk. specialize (IH j (proj2 Hord) Hnth).
      destruct (Z.ltb_spec k key); lia.
Qed.

Lemma nth_upper_bound m key i e :
  ordered m -> nth_error m i = Some e ->
  ((i < upper_bound m key)%nat <-> fst e <= key).
Proof.
  revert i. induction m as [|[k v] t IH]; intros i Hord Hnth.
  - destruct i; discriminate.
  - destruct i as [|j]; simpl in *.
    + injection Hnth as <-. simpl.
      destruct (Z.ltb_spec key k); lia.
    + pose proof (ordered_head_lt (k, v) t e Hord (nth_error_In _ _ Hnth)) as Hk.
      simpl in Hk. specialize (IH j (proj2 Hord) Hnth).
      destruct (Z.ltb_spec key k); lia.
Qed.

Lemma nth_ordered m i j e1 e2 :
  ordered m -> nth_error m i = Some e1 -> nth_error m j = Some e2 ->
  (i < j)%nat -> fst e1 < fst e2.
Proof.
  revert i j. induction m as [|e t IH]; intros i j Hord H1 H2 Hij.
  - destruct i; discriminate.
  - destruct j as [|j]; [lia|]. destruct i as [|i]; simpl in H1, H2.
    + injection H1 as <-.
      exact (ordered_head_lt e t e2 Hord (nth_error_In _ _ H2)).
    + apply (IH i j (ordered_tail _ _ Hord) H1 H2). lia.
Qed.

(** ** The parts of a table around a key *)

Lemma firstn_lower_keys m key :
  Forall (fun e => fst e < key) (firstn (lower_bound m key) m).
Proof.
  induction m as [|[k v] t IH]; simpl; [constructor|].
  destruct (Z.ltb_spec k key); simpl; constructor; auto.
Qed.

Lemma firstn_upper_keys m key :
  Forall (fun e => fst e <= key) (firstn (upper_bound m key) m).
Proof.
  induction m as [|[k v] t IH]; simpl; [constructor|].
  destruct (Z.ltb_spec key k); simpl; constructor; auto.
Qed.

Lemma skipn_lower_keys m key :
  ordered m -> Forall (fun e => key <= fst e) (skipn (lower_bound m key) m).
Proof.
  induction m as [|[k v] t IH]; simpl; intros Hord; [constructor|].
  destruct (Z.ltb_spec k key); simpl.
  - apply IH. tauto.
  - constructor; [simpl; lia|].
    destruct Hord as [Hall _]. revert Hall. apply Forall_impl.
    simpl. intros; lia.
Qed.

Lemma skipn_upper_keys m key :
  ordered m -> Forall (fun e => key < fst e) (skipn (upper_bound m key) m).
Proof.
  induction m as [|[k v] t IH]; simpl; intros Hord; [constructor|].
  destruct (Z.ltb_spec key k); simpl.
  - constructor; [simpl; lia|].
    destruct Hord as [Hall _]. revert Hall. apply Forall_impl.
    simpl. intros; lia.
  - apply IH. tauto.
Qed.

Lemma ordered_app l1 l2 :
  ordered (l1 ++ l2) <->
  ordered l1 /\ ordered l2 /\
  (forall e1 e2, In e1 l1 -> In e2 l2 -> fst e1 < fst e2).
Proof.
  induction l1 as [|e t IH]; simpl.
  - intuition.
  - rewrite Forall_app, IH, !Forall_forall. split.
    + intros [[H1 H2] (H3 & H4 & H5)]. repeat split; auto.
      intros e1 e2 [<-|Hin] Hin2; auto.
    + intros ([H1 H2] & H3 & H4). repeat split; auto.
Qed.

Lemma ordered_firstn m i : ordered m -> ordered (firstn i m).
Proof.
  intros Hord. rewrite <- (firstn_skipn i m) in Hord.
  apply ordered_app in Hord. tauto.
Qed.

Lemma ordered_skipn m i : ordered m -> ordered (skipn i m).
Proof.
  intros Hord. rewrite <- (firstn_skipn i m) in Hord.
  apply ordered_app in Hord. tauto.
Qed.

(** ** Values along a table *)

Lemma last_val_app d l1 l2 :
  last_val d (l1 ++ l2) = last_val (last_val d l1) l2.
Proof.
  revert d. induction l1 as [|[k v] t IH]; intros d; simpl; auto.
Qed.

Lemma value_at_before d m key :
  Forall (fun e => key < fst e) m -> value_at d m key = d.
Proof.
  destruct m as [|[k v] t]; simpl; auto.
  intros Hall. inversion Hall as [|? ? Hk _]; subst. simpl in Hk.
  destruct (Z.ltb_spec key k); auto; lia.
Qed.

Lemma value_at_past d m key :
  Forall (fun e => fst e <= key) m -> value_at d m key = last_val d m.
Proof.
  revert d. induction m as [|[k v] t IH]; intros d Hall; simpl; auto.
  inversion Hall as [|? ? Hk Ht]; subst. simpl in Hk.
  destruct (Z.ltb_spec key k); [lia|]. auto.
Qed.

Lemma value_at_app_past d l1 l2 key :
  Forall (fun e => fst e <= key) l1 ->
  value_at d (l1 ++ l2) key = value_at (last_val d l1) l2 key.
Proof.
  revert d. induction l1 as [|[k v] t IH]; intros d Hall; simpl; auto.
  inversion Hall as [|? ? Hk Ht]; subst. simpl in Hk.
  destruct (Z.ltb_spec key k); [lia|]. auto.
Qed.

Lemma value_at_app_before d l1 l2 key :
  Forall (fun e => key < fst e) l2 ->
  value_at d (l1 ++ l2) key = value_at d l1 key.
Proof.
  intros Hall. revert d.
  induction l1 as [|[k v] t IH]; intros d; simpl.
  - apply value_at_before; assumption.
  - destruct (key <? k); auto.
Qed.

Lemma value_at_upper d m key :
  value_at d m key = last_val d (firstn (upper_bound m key) m).
Proof.
  revert d. induction m as [|[k v] t IH]; intros d; simpl; auto.
  destruct (key <? k); simpl; auto.
Qed.

Lemma value_below_lower d m key :
  value_below d m key = last_val d (firstn (lower_bound m key) m).
Proof.
  revert d. induction m as [|[k v] t IH]; intros d; simpl; auto.
  destruct (k <? key); simpl; auto.
Qed.

Lemma last_val_firstn_nth d m i :
  (0 < i <= length m)%nat ->
  exists e, nth_error m (Nat.pred i) = Some e /\
            last_val d (firstn i m) = snd e.
Proof.
  revert d i. induction m as [|[k v] t IH]; intros d i Hi; simpl in Hi.
  - lia.
  - destruct i as [|[|i]]; [lia| |].
    + exists (k, v). simpl. auto.
    + destruct (IH v (S i)) as (e & Hnth & Hlast); [lia|].
      exists e. simpl in *. auto.
Qed.

(** ** The backward walk to the start of the erased span *)

Lemma walk_back_eq m keyBegin i :
  walk_back m keyBegin i =
  match nth_error m i with
  | None => None
  | Some e =>
      if (keyBegin <? fst e) && negb (i =? 0)%nat
      then match i with
           | O => None
           | S i' => walk_back m keyBegin i'
           end
      else Some i
  end.
Proof. destruct i; reflexivity. Qed.

Lemma walk_back_spec m keyBegin i :
  (i < length m)%nat ->
  exists j e,
    walk_back m keyBegin i = Some j /\ (j <= i)%nat /\
    nth_error m j = Some e /\
    (fst e <= keyBegin \/ j = 0%nat) /\
    (forall j' e', (j < j' <= i)%nat -> nth_error m j' = Some e' ->
                   keyBegin < fst e').
Proof.
  induction i as [|i IH]; intros Hi; rewrite walk_back_eq.
  - destruct (nth_error m 0) as [e|] eqn:Hnth.
    2:{ apply nth_error_None in Hnth. lia. }
    exists 0%nat, e. rewrite andb_false_r.
    repeat split; auto. intros; lia.
  - destruct (nth_error m (S i)) as [e|] eqn:Hnth.
    2:{ apply nth_error_None in Hnth. lia. }
    change (negb (S i =? 0)%nat) with true. rewrite andb_true_r.
    destruct (Z.ltb_spec keyBegin (fst e)) as [Hlt|Hge].
    + destruct IH as (j & e0 & Hw & Hj & Hn & Hk & Hall); [lia|].
      exists j, e0. repeat split; auto.
      intros j' e' Hj' Hn'.
      destruct (Nat.eq_dec j' (S i)) as [->|Hne].
      * congruence.
      * apply (Hall j' e'); auto. lia.
    + exists (S i), e. repeat split; auto. intros; lia.
Qed.

Lemma find_start m keyBegin keyEnd :
  ordered m -> m <> [] -> keyBegin < keyEnd ->
  let itEnd := upper_bound m keyEnd in
  exists j e,
    walk_back m keyBegin (Nat.pred itEnd) = Some j /\
    deref m j = Some e /\
    (if (fst e <? keyBegin) && negb (j =? itEnd)%nat
     then inc m j else Some j) = Some (lower_bound m keyBegin).
Proof.
  intros Hord Hne Hlt itEnd.
  assert (Hlen : (0 < length m)%nat) by (destruct m; simpl; [congruence|lia]).
  pose proof (upper_bound_le m keyEnd) as Hub. fold itEnd in Hub.
  destruct (walk_back_spec m keyBegin (Nat.pred itEnd))
    as (j & e & Hw & Hj & Hn & Hk & Hall); [lia|].
  exists j, e. split; [assumption|]. split; [assumption|].
  pose proof (nth_lower_bound m keyBegin j e Hord Hn) as Hjlb.
  pose proof (lower_bound_le m keyBegin) as Hlb.
  assert (Hjlen : (j < length m)%nat) by (apply nth_error_Some; congruence).
  (* every position from j+1 on carries a key above keyBegin *)
  assert (Habove : forall j' e', (j < j')%nat -> nth_error m j' = Some e' ->
                                 keyBegin < fst e').
  { intros j' e' Hj' Hn'.
    destruct (Nat.le_gt_cases j' (Nat.pred itEnd)) as [Hle|Hgt].
    - apply (Hall j' e'); auto.
    - pose proof (nth_upper_bound m keyEnd j' e' Hord Hn') as Hu.
      fold itEnd in Hu. lia. }
  assert (Hnext : (lower_bound m keyBegin <= S j)%nat).
  { destruct (Nat.le_gt_cases (lower_bound m keyBegin) (S j)); auto.
    destruct (nth_error m (S j)) as [e'|] eqn:Hn'.
    2:{ apply nth_error_None in Hn'. lia. }
    pose proof (nth_lower_bound m keyBegin (S j) e' Hord Hn').
    pose proof (Habove (S j) e' ltac:(lia) Hn'). lia. }
  destruct (Z.ltb_spec (fst e) keyBegin) as [Hlo|Hhi]; simpl.
  - destruct (Nat.eqb_spec j itEnd) as [Heq|Hneq]; simpl.
    + pose proof (nth_upper_bound m keyEnd j e Hord Hn) as Hu.
      fold itEnd in Hu. lia.
    + unfold inc, map_end.
      destruct (Nat.ltb_spec j (length m)); [|lia].
      f_equal. lia.
  - f_equal.
    destruct Hk as [Hk|Hk].
    + assert (fst e = keyBegin) by lia.
      destruct (Nat.le_gt_cases j (lower_bound m keyBegin)) as [Hle|Hgt]; [lia|].
      destruct (nth_error m (lower_bound m keyBegin)) as [e'|] eqn:Hn'.
      2:{ apply nth_error_None in Hn'. lia. }
      pose proof (nth_lower_bound m keyBegin _ e' Hord Hn').
      pose proof (nth_ordered m _ j e' e Hord Hn' Hn Hgt). lia.
    + lia.
Qed.

(** ** Insertion between two parts of a table *)

Lemma map_insert_between l1 l2 k v :
  Forall (fun e => fst e < k) l1 ->
  Forall (fun e => k < fst e) l2 ->
  map_insert (l1 ++ l2) (k, v) = l1 ++ (k, v) :: l2.
Proof.
  intros H1 H2. induction l1 as [|e t IH]; simpl.
  - destruct l2 as [|e2 t2]; simpl; auto.
    inversion H2 as [|? ? Hk _]; subst.
    destruct (Z.ltb_spec k (fst e2)); auto; lia.
  - inversion H1 as [|? ? Hk Ht]; subst.
    destruct (Z.ltb_spec k (fst e)); [lia|].
    destruct (Z.ltb_spec (fst e) k); [|lia].
    rewrite IH; auto.
Qed.

(** ** Running the monad *)

Lemma bind_ret {A B} (a : A) (f : A -> M V B) s : bind (ret a) f s = f a s.
Proof. reflexivity. Qed.

Lemma bind_lift {A B} (a : A) (f : A -> M V B) s :
  bind (lift (Some a)) f s = f a s.
Proof. reflexivity. Qed.

Lemma bind_get_map {B} (f : std_map V -> M V B) s :
  bind get_map f s = f (m_map s) s.
Proof. reflexivity. Qed.

Lemma bind_get_valBegin {B} (f : V -> M V B) s :
  bind get_valBegin f s = f (m_valBegin s) s.
Proof. reflexivity. Qed.

Lemma bind_put_map {B} m (f : unit -> M V B) s :
  bind (put_map m) f s = f tt (Build_interval_map (m_valBegin s) m).
Proof. reflexivity. Qed.

Lemma bind_bind {A B C} (c : M V A) (f : A -> M V B) (g : B -> M V C) s :
  bind (bind c f) g s = bind c (fun a => bind (f a) g) s.
Proof.
  unfold bind. destruct (c s) as [[a s']|]; reflexivity.
Qed.

Lemma bind_eq {A B} (c : M V A) (f : A -> M V B) s a s' :
  c s = Some (a, s') -> bind c f s = f a s'.
Proof. unfold bind. intros ->. reflexivity. Qed.

(** ** What [assign] computes *)

Lemma assign_nonempty s keyBegin keyEnd val :
  ordered (m_map s) -> m_map s <> [] -> keyBegin < keyEnd ->
  assign keyBegin keyEnd val s =
  Some (tt, Build_interval_map (m_valBegin s)
              (assign_table (m_valBegin s) (m_map s) keyBegin keyEnd val)).
Proof.
  destruct s as [d m]. simpl. intros Hord Hne Hlt.
  unfold assign.
  destruct (Z.ltb_spec keyBegin keyEnd) as [_|]; [|lia].
  change (negb true) with false. cbv iota.
  rewrite bind_get_map. cbn [m_map].
  assert (Hemp : map_empty m = false) by (destruct m; [congruence|reflexivity]).
  rewrite Hemp.
  rewrite bind_get_valBegin. cbn [m_valBegin]. cbv zeta.
  unfold assign_table.
  pose proof (upper_bound_le m keyEnd) as Hub.
  pose proof (lower_le_upper m keyBegin keyEnd ltac:(lia)) as Hlu.
  destruct (find_start m keyBegin keyEnd Hord Hne Hlt) as (j & e & Hw & Hd & Hadj).
  cbv zeta in Hw, Hadj.
  set (itEnd := upper_bound m keyEnd) in *.
  set (itStart := lower_bound m keyBegin) in *.
  set (valEnd := last_val d (firstn itEnd m)).
  set (s0 := {| m_valBegin := d; m_map := m |}).
  (* valEnd and the position the walk starts from *)
  erewrite bind_eq with (a := (Nat.pred itEnd, valEnd)) (s' := s0).
  2:{ unfold map_begin. destruct itEnd as [|n] eqn:Hn; simpl.
      - reflexivity.
      - destruct (last_val_firstn_nth d m (S n)) as (e' & Hnth & Hlast); [lia|].
        simpl in Hnth. rewrite bind_lift. unfold deref. rewrite Hnth.
        rewrite bind_lift. unfold ret, valEnd. rewrite Hlast. reflexivity. }
  cbv iota beta.
  rewrite Hw, bind_lift, Hd, bind_lift.
  (* the start of the erased span *)
  erewrite bind_eq with (a := itStart) (s' := s0).
  2:{ destruct ((fst e <? keyBegin) && negb (j =? itEnd)%nat).
      - rewrite Hadj. reflexivity.
      - injection Hadj as ->. reflexivity. }
  (* the two tests on the value before the span *)
  erewrite bind_eq
    with (a := orb (itStart =? 0)%nat
                   (negb (V_eqb (last_val d (firstn itStart m)) val)))
         (s' := s0).
  2:{ unfold map_begin. destruct itStart as [|n] eqn:Hn; simpl.
      - reflexivity.
      - destruct (last_val_firstn_nth d m (S n)) as (e' & Hnth & Hlast).
        { pose proof (lower_bound_le m keyBegin). fold itStart in H0. lia. }
        simpl in Hnth. rewrite bind_lift. unfold deref. rewrite Hnth.
        rewrite bind_lift. simpl in Hlast. rewrite Hlast. reflexivity. }
  (* erase *)
  unfold m_erase. rewrite bind_bind, bind_get_map. cbn [m_map s0].
  unfold map_erase, map_end.
  destruct (Nat.leb_spec itStart itEnd); [|lia].
  destruct (Nat.leb_spec itEnd (length m)); [|lia].
  simpl andb. cbv iota.
  rewrite bind_bind, bind_lift. cbv iota beta.
  rewrite bind_bind, bind_put_map, bind_ret. cbn [m_valBegin s0].
  (* the two insertions *)
  assert (Hins : (((itStart =? 0)%nat
                   || negb (V_eqb (last_val d (firstn itStart m)) val))
                  && negb ((itStart =? map_begin m)%nat && V_eqb val d))
                 = negb (V_eqb (last_val d (firstn itStart m)) val)).
  { unfold map_begin. destruct itStart; simpl.
    - rewrite V_eqb_sym. reflexivity.
    - rewrite andb_true_r. reflexivity. }
  rewrite Hins. clear Hins.
  pose proof (firstn_lower_keys m keyBegin) as HA. fold itStart in HA.
  pose proof (skipn_upper_keys m keyEnd Hord) as HC. fold itEnd in HC.
  assert (HCb : Forall (fun e => keyBegin < fst e) (skipn itEnd m)).
  { revert HC. apply Forall_impl. intros; lia. }
  assert (HAe : Forall (fun e => fst e < keyEnd) (firstn itStart m)).
  { revert HA. apply Forall_impl. intros; lia. }
  unfold when, m_insert_hint, map_insert_hint.
  destruct (V_eqb (last_val d (firstn itStart m)) val);
    destruct (V_eqb valEnd val); simpl negb; cbv iota.
  - reflexivity.
  - rewrite bind_ret, bind_get_map. cbn [m_map m_valBegin].
    rewrite map_insert_between by assumption. reflexivity.
  - rewrite bind_bind, bind_get_map, bind_put_map.
    cbn [m_map m_valBegin].
    rewrite map_insert_between by assumption. reflexivity.
  - rewrite bind_bind, bind_get_map, bind_put_map, bind_get_map.
    cbn [m_map m_valBegin].
    rewrite map_insert_between by assumption.
    change (firstn itStart m ++ (keyBegin, val) :: skipn itEnd m)
      with (firstn itStart m ++ [(keyBegin, val)] ++ skipn itEnd m).
    rewrite app_assoc, map_insert_between; auto.
    + rewrite <- app_assoc. reflexivity.
    + apply Forall_app. split; [assumption|].
      constructor; [simpl; lia|constructor].
Qed.

Lemma assign_empty s keyBegin keyEnd val :
  m_map s = [] -> keyBegin < keyEnd ->
  assign keyBegin keyEnd val s =
  Some (tt, Build_interval_map (m_valBegin s)
              [(keyBegin, val); (keyEnd, m_valBegin s)]).
Proof.
  destruct s as [d m]. simpl. intros -> Hlt.
  unfold assign.
  destruct (Z.ltb_spec keyBegin keyEnd) as [_|]; [|lia].
  change (negb true) with false. cbv iota.
  rewrite bind_get_map. cbn [m_map map_empty].
  unfold m_insert.
  rewrite bind_bind, bind_get_map, bind_put_map, bind_get_valBegin,
    bind_get_map.
  cbn [m_map m_valBegin map_insert fst].
  destruct (Z.ltb_spec keyEnd keyBegin); [lia|].
  destruct (Z.ltb_spec keyBegin keyEnd); [|lia].
  reflexivity.
Qed.

Lemma assign_degenerate s keyBegin keyEnd val :
  ~ keyBegin < keyEnd -> assign keyBegin keyEnd val s = Some (tt, s).
Proof.
  intros Hge. unfold assign.
  destruct (Z.ltb_spec keyBegin keyEnd); [lia|]. reflexivity.
Qed.

(** ** What [operator[]] computes *)

Lemma upper_bound_value_at d m key :
  match upper_bound m key with
  | O => Some d
  | S it' => option_map snd (nth_error m it')
  end = Some (value_at d m key).
Proof.
  revert d. induction m as [|[k v] t IH]; intros d; simpl; auto.
  destruct (key <? k); auto.
  specialize (IH v). destruct (upper_bound t key); simpl in *; auto.
Qed.

Lemma lookup_value_at s key :
  lookup key s = Some (value_at (m_valBegin s) (m_map s) key, s).
Proof.
  unfold lookup. rewrite bind_get_map. cbv zeta. unfold map_begin.
  pose proof (upper_bound_value_at (m_valBegin s) (m_map s) key) as Hv.
  destruct (upper_bound (m_map s) key) as [|it'].
  - change (0 =? 0)%nat with true. cbv iota.
    unfold get_valBegin. congruence.
  - change (S it' =? 0)%nat with false. cbv iota.
    change (dec (S it')) with (Some it'). rewrite bind_lift. unfold deref.
    destruct (nth_error (m_map s) it') as [e|]; simpl in Hv; [|discriminate].
    rewrite bind_lift. unfold ret. congruence.
Qed.

(** For an ordered table, the value in force at [key] is the one paired
    with the greatest stored key not above [key]. *)
Lemma value_at_greatest d m key :
  ordered m ->
  (Forall (fun e => key < fst e) m /\ value_at d m key = d) \/
  (exists k v, In (k, v) m /\ k <= key /\
               Forall (fun e => fst e <= key -> fst e <= k) m /\
               value_at d m key = v).
Proof.
  revert d. induction m as [|[k v] t IH]; intros d Hord; simpl.
  - left. auto.
  - destruct Hord as [Hall Hord].
    destruct (Z.ltb_spec key k) as [Hlt|Hge].
    + left. split; auto. constructor; [assumption|].
      revert Hall. apply Forall_impl. simpl. intros; lia.
    + right. destruct (IH v Hord) as [[Hnone Hv]|(k' & v' & Hin & Hle & Hgr & Hv)].
      * exists k, v. repeat split; auto.
        constructor; [simpl; lia|].
        revert Hnone. apply Forall_impl. intros; lia.
      * exists k', v'. repeat split; auto.
        constructor; [|assumption].
        simpl. intros _. rewrite Forall_forall in Hall.
        specialize (Hall _ Hin). simpl in Hall. lia.
Qed.

(** ** The table after [assign], read as a step function *)

Lemma Forall_firstn_part {A} (P : A -> Prop) (l : list A) i :
  Forall P l -> Forall P (firstn i l).
Proof.
  intros Hall. rewrite <- (firstn_skipn i l) in Hall.
  apply Forall_app in Hall. tauto.
Qed.

Lemma ordered_keys_from e t :
  ordered (e :: t) -> Forall (fun e' => fst e <= fst e') (e :: t).
Proof.
  intros [Hall _]. constructor; [lia|].
  revert Hall. apply Forall_impl. intros; lia.
Qed.

(** The boundaries up to [upper_bound keyEnd] are those before
    [lower_bound keyBegin] followed by the span to erase. *)
Lemma span_split m keyBegin keyEnd :
  ordered m -> keyBegin <= keyEnd ->
  exists span,
    firstn (upper_bound m keyEnd) m
    = firstn (lower_bound m keyBegin) m ++ span /\
    Forall (fun e => keyBegin <= fst e <= keyEnd) span.
Proof.
  induction m as [|[k v] t IH]; intros Hord Hle.
  - exists []. simpl. auto.
  - destruct (Z.ltb_spec k keyBegin) as [Hlo|Hhi].
    + destruct (IH (ordered_tail _ _ Hord) Hle) as (span & Heq & Hspan).
      simpl. destruct (Z.ltb_spec k keyBegin); [|lia].
      destruct (Z.ltb_spec keyEnd k); [lia|].
      exists span. simpl. rewrite Heq. auto.
    + exists (firstn (upper_bound ((k, v) :: t) keyEnd) ((k, v) :: t)).
      split.
      * simpl lower_bound. destruct (Z.ltb_spec k keyBegin); [lia|].
        reflexivity.
      * pose proof (firstn_upper_keys ((k, v) :: t) keyEnd) as Hup.
        pose proof (Forall_firstn_part _ _
                      (upper_bound ((k, v) :: t) keyEnd)
                      (ordered_keys_from _ _ Hord)) as Hlow.
        rewrite Forall_forall in *. intros e Hin.
        specialize (Hup e Hin). specialize (Hlow e Hin). simpl in *. lia.
Qed.

Lemma value_at_assign_table d m keyBegin keyEnd val key :
  ordered m -> keyBegin < keyEnd ->
  value_at d (assign_table d m keyBegin keyEnd val) key =
  if (keyBegin <=? key) && (key <? keyEnd) then val else value_at d m key.
Proof.
  intros Hord Hlt. unfold assign_table.
  destruct (span_split m keyBegin keyEnd Hord ltac:(lia))
    as (span & Hsplit & Hspan).
  pose proof (firstn_lower_keys m keyBegin) as HA.
  pose proof (skipn_upper_keys m keyEnd Hord) as HC.
  pose proof (firstn_skipn (upper_bound m keyEnd) m) as Hm.
  set (A := firstn (lower_bound m keyBegin) m) in *.
  set (C := skipn (upper_bound m keyEnd) m) in *.
  rewrite Hsplit in *.
  replace (value_at d m key) with (value_at d ((A ++ span) ++ C) key)
    by (rewrite Hm; reflexivity).
  clear Hm.
  rewrite last_val_app.
  set (p := last_val d A).
  set (valEnd := last_val p span).
  set (Ib := if V_eqb p val then [] else [(keyBegin, val)]).
  set (Ie := if V_eqb valEnd val then [] else [(keyEnd, valEnd)]).
  assert (HIb : Forall (fun e => fst e = keyBegin) Ib).
  { unfold Ib. destruct (V_eqb p val); repeat constructor. }
  assert (HIe : Forall (fun e => fst e = keyEnd) Ie).
  { unfold Ie. destruct (V_eqb valEnd val); repeat constructor. }
  destruct (Z.leb_spec keyBegin key) as [Hge|Hlo]; simpl andb.
  - destruct (Z.ltb_spec key keyEnd) as [Hin|Hout].
    + (* inside the assigned range *)
      rewrite value_at_app_past.
      2:{ revert HA. apply Forall_impl. intros; lia. }
      fold p.
      assert (Hrest : Forall (fun e => key < fst e) (Ie ++ C)).
      { apply Forall_app. split.
        - revert HIe. apply Forall_impl. intros; lia.
        - revert HC. apply Forall_impl. intros; lia. }
      unfold Ib. destruct (V_eqb p val) eqn:Hp.
      * apply V_eqb_true_iff in Hp. simpl app.
        rewrite value_at_before by assumption. assumption.
      * simpl. destruct (Z.ltb_spec key keyBegin); [lia|].
        apply value_at_before; assumption.
    + (* at or after keyEnd *)
      rewrite !app_assoc. rewrite <- (app_assoc A Ib Ie).
      rewrite !value_at_app_past.
      * f_equal. rewrite !last_val_app. fold p. fold valEnd.
        unfold Ib, Ie.
        destruct (V_eqb p val) eqn:Hp; destruct (V_eqb valEnd val) eqn:He;
          simpl; auto.
        -- apply V_eqb_true_iff in Hp, He. congruence.
        -- apply V_eqb_true_iff in He. congruence.
      * apply Forall_app. split.
        -- revert HA. apply Forall_impl. intros; lia.
        -- revert Hspan. apply Forall_impl. intros; lia.
      * apply Forall_app. split; [|apply Forall_app; split].
        -- revert HA. apply Forall_impl. intros; lia.
        -- revert HIb. apply Forall_impl. intros; lia.
        -- revert HIe. apply Forall_impl. intros; lia.
  - (* before keyBegin *)
    rewrite <- app_assoc.
    rewrite !(value_at_app_before d A); auto.
    + apply Forall_app. split.
      * revert Hspan. apply Forall_impl. intros; lia.
      * revert HC. apply Forall_impl. intros; lia.
    + apply Forall_app. split; [|apply Forall_app; split].
      * revert HIb. apply Forall_impl. intros; lia.
      * revert HIe. apply Forall_impl. intros; lia.
      * revert HC. apply Forall_impl. intros; lia.
Qed.

(** ** [assign] keeps the table ordered *)

Lemma ordered_between l1 l2 k :
  ordered l1 -> ordered l2 ->
  Forall (fun e => fst e < k) l1 -> Forall (fun e => k <= fst e) l2 ->
  ordered (l1 ++ l2).
Proof.
  intros H1 H2 Hlo Hhi. apply ordered_app. repeat split; auto.
  rewrite Forall_forall in Hlo, Hhi. intros e1 e2 Hin1 Hin2.
  specialize (Hlo e1 Hin1). specialize (Hhi e2 Hin2). simpl in *. lia.
Qed.

Lemma ordered_assign_table d m keyBegin keyEnd val :
  ordered m -> keyBegin < keyEnd ->
  ordered (assign_table d m keyBegin keyEnd val).
Proof.
  intros Hord Hlt. unfold assign_table.
  pose proof (firstn_lower_keys m keyBegin) as HA.
  pose proof (skipn_upper_keys m keyEnd Hord) as HC.
  set (C := skipn (upper_bound m keyEnd) m) in *.
  assert (HordC : ordered C) by (apply ordered_skipn; assumption).
  assert (Hend : forall v, ordered ((keyEnd, v) :: C)).
  { intros v. split; assumption. }
  apply ordered_between with (k := keyBegin);
    [apply ordered_firstn; assumption| |assumption|].
  - destruct (V_eqb (last_val d (firstn (lower_bound m keyBegin) m)) val);
      destruct (V_eqb (last_val d (firstn (upper_bound m keyEnd) m)) val);
      simpl; auto.
    + split; auto. revert HC. apply Forall_impl. simpl. intros; lia.
    + split; auto. constructor; [simpl; lia|].
      revert HC. apply Forall_impl. simpl. intros; lia.
  - repeat (apply Forall_app; split).
    + destruct (V_eqb _ val); repeat constructor. simpl; lia.
    + destruct (V_eqb _ val); repeat constructor. simpl; lia.
    + revert HC. apply Forall_impl. intros; lia.
Qed.

(** [assign] returns on every ordered table, keeps it ordered and leaves
    the default value alone. *)
Lemma assign_ordered s keyBegin keyEnd val :
  ordered (m_map s) ->
  exists s',
    assign keyBegin keyEnd val s = Some (tt, s') /\
    ordered (m_map s') /\ m_valBegin s' = m_valBegin s.
Proof.
  intros Hord.
  destruct (Z.lt_ge_cases keyBegin keyEnd) as [Hlt|Hge].
  - destruct (m_map s) as [|e t] eqn:Hm.
    + eexists. split; [apply assign_empty; assumption|].
      simpl. repeat split; auto.
    + eexists. split.
      * apply assign_nonempty; rewrite ?Hm; [assumption|discriminate|assumption].
      * simpl. split; [|reflexivity].
        apply ordered_assign_table; rewrite ?Hm; assumption.
  - exists s. split; [apply assign_degenerate; lia|]. auto.
Qed.

Lemma exec_assign s keyBegin keyEnd val s' :
  exec (assign keyBegin keyEnd val) s = Some s' <->
  assign keyBegin keyEnd val s = Some (tt, s').
Proof.
  unfold exec.
  destruct (assign keyBegin keyEnd val s) as [[[] s'']|]; split; congruence.
Qed.

Lemma reachable_ordered s : reachable s -> ordered (m_map s).
Proof.
  induction 1 as [val|s s' keyBegin keyEnd val _ IH Hexec].
  - exact I.
  - apply exec_assign in Hexec.
    destruct (assign_ordered s keyBegin keyEnd val IH) as (s'' & Heq & Ho & _).
    congruence.
Qed.

(** ** The redundancy-free form *)

Lemma canonical_app d l1 l2 :
  canonical d (l1 ++ l2) <-> canonical d l1 /\ canonical (last_val d l1) l2.
Proof.
  revert d. induction l1 as [|[k v] t IH]; intros d; simpl.
  - tauto.
  - rewrite IH. tauto.
Qed.

(** On a non-empty table [assign] keeps the redundancy-free form. *)
Lemma canonical_assign_table d m keyBegin keyEnd val :
  ordered m -> keyBegin < keyEnd -> canonical d m ->
  canonical d (assign_table d m keyBegin keyEnd val).
Proof.
  intros Hord Hlt Hcan. unfold assign_table.
  destruct (span_split m keyBegin keyEnd Hord ltac:(lia))
    as (span & Hsplit & _).
  rewrite <- (firstn_skipn (upper_bound m keyEnd) m) in Hcan.
  rewrite Hsplit in *.
  set (A := firstn (lower_bound m keyBegin) m) in *.
  set (C := skipn (upper_bound m keyEnd) m) in *.
  apply canonical_app in Hcan. destruct Hcan as [HcanAB HcanC].
  apply canonical_app in HcanAB. destruct HcanAB as [HcanA _].
  set (valEnd := last_val d (A ++ span)) in *.
  apply canonical_app. split; [assumption|].
  destruct (V_eqb_spec (last_val d A) val) as [Hp|Hp];
    destruct (V_eqb_spec valEnd val) as [He|He]; simpl.
  - congruence.
  - split; [congruence|assumption].
  - split; [congruence|]. rewrite <- He. assumption.
  - repeat split; auto.
Qed.

(** ** Which boundaries [assign] leaves at [keyBegin] and [keyEnd] *)

Lemma in_assign_table d m keyBegin keyEnd val e :
  ordered m -> keyBegin < keyEnd ->
  In e (assign_table d m keyBegin keyEnd val) ->
  fst e < keyBegin \/
  (e = (keyBegin, val) /\ value_below d m keyBegin <> val) \/
  (e = (keyEnd, value_at d m keyEnd) /\ value_at d m keyEnd <> val) \/
  keyEnd < fst e.
Proof.
  intros Hord Hlt. unfold assign_table.
  rewrite <- value_below_lower, <- value_at_upper.
  pose proof (firstn_lower_keys m keyBegin) as HA.
  pose proof (skipn_upper_keys m keyEnd Hord) as HC.
  rewrite Forall_forall in HA, HC.
  rewrite !in_app_iff. intros [Hin|[Hin|[Hin|Hin]]].
  - left. auto.
  - right. left.
    destruct (V_eqb_spec (value_below d m keyBegin) val); simpl in Hin.
    + contradiction.
    + destruct Hin as [<-|[]]. auto.
  - right. right. left.
    destruct (V_eqb_spec (value_at d m keyEnd) val); simpl in Hin.
    + contradiction.
    + destruct Hin as [<-|[]]. auto.
  - right. right. right. auto.
Qed.

Lemma begin_in_assign_table d m keyBegin keyEnd val :
  value_below d m keyBegin <> val ->
  In (keyBegin, val) (assign_table d m keyBegin keyEnd val).
Proof.
  intros Hne. unfold assign_table. rewrite <- value_below_lower.
  destruct (V_eqb_spec (value_below d m keyBegin) val); [contradiction|].
  rewrite !in_app_iff. right. left. simpl. auto.
Qed.

Lemma end_in_assign_table d m keyBegin keyEnd val :
  value_at d m keyEnd <> val ->
  In (keyEnd, value_at d m keyEnd) (assign_table d m keyBegin keyEnd val).
Proof.
  intros Hne. unfold assign_table. rewrite <- value_at_upper.
  destruct (V_eqb_spec (value_at d m keyEnd) val); [contradiction|].
  rewrite !in_app_iff. right. right. left. simpl. auto.
Qed.

Lemma value_below_none d m key :
  Forall (fun e => key <= fst e) m -> value_below d m key = d.
Proof.
  destruct m as [|[k v] t]; simpl; auto.
  intros Hall. inversion Hall as [|? ? Hk _]; subst. simpl in Hk.
  destruct (Z.ltb_spec k key); auto; lia.
Qed.

(** Removing the span [[keyBegin, keyEnd]] does not change the value in
    force immediately below [keyBegin]. *)
Lemma value_below_remove_span d m keyBegin keyEnd :
  ordered m ->
  value_below d (remove_span m keyBegin keyEnd) keyBegin
  = value_below d m keyBegin.
Proof.
  revert d. induction m as [|[k v] t IH]; intros d Hord; [reflexivity|].
  destruct (Z.ltb_spec k keyBegin) as [Hlo|Hhi].
  - unfold remove_span in *. simpl.
    destruct (Z.leb_spec keyBegin k); [lia|]. simpl.
    destruct (Z.ltb_spec k keyBegin); [|lia].
    apply IH. exact (ordered_tail _ _ Hord).
  - rewrite (value_below_none d ((k, v) :: t)).
    + apply value_below_none. unfold remove_span.
      pose proof (ordered_keys_from _ _ Hord) as Hall.
      rewrite Forall_forall in *. intros e Hin.
      apply filter_In in Hin. destruct Hin as [Hin _].
      specialize (Hall e Hin). simpl in Hall. lia.
    + pose proof (ordered_keys_from _ _ Hord) as Hall.
      revert Hall. apply Forall_impl. simpl. intros; lia.
Qed.

(** ** Re-asserting a value on a non-empty table *)

Lemma span_after_equal span val lo keyEnd :
  ordered span ->
  Forall (fun e => lo <= fst e <= keyEnd) span ->
  canonical val span ->
  (forall k, lo <= k < keyEnd -> value_at val span k = val) ->
  span = if V_eqb (last_val val span) val then []
         else [(keyEnd, last_val val span)].
Proof.
  intros Hord Hall Hcan Hval. destruct span as [|[k1 v1] r]; simpl.
  - destruct (V_eqb_spec val val); [reflexivity|contradiction].
  - destruct Hcan as [Hne Hcan].
    pose proof (proj1 (Forall_cons_iff _ _ _) Hall) as [Hk1 Hr].
    simpl in Hk1.
    assert (Hbefore : value_at v1 r k1 = v1).
    { apply value_at_before. destruct Hord as [Hlt _]. exact Hlt. }
    assert (k1 = keyEnd) as ->.
    { destruct (Z.eq_dec k1 keyEnd); auto.
      specialize (Hval k1 ltac:(lia)). simpl in Hval.
      destruct (Z.ltb_spec k1 k1); [lia|]. congruence. }
    assert (r = []) as ->.
    { destruct r as [|e r']; auto.
      pose proof (ordered_head_lt _ _ e Hord (or_introl eq_refl)) as Hlt.
      pose proof (proj1 (Forall_cons_iff _ _ _) Hr) as [He _].
      simpl in *. lia. }
    simpl. destruct (V_eqb_spec v1 val); [contradiction|reflexivity].
Qed.

Lemma span_redundant p span val keyBegin keyEnd :
  ordered span ->
  Forall (fun e => keyBegin <= fst e <= keyEnd) span ->
  canonical p span -> keyBegin < keyEnd ->
  (forall k, keyBegin <= k < keyEnd -> value_at p span k = val) ->
  span = (if V_eqb p val then [] else [(keyBegin, val)])
         ++ (if V_eqb (last_val p span) val then []
             else [(keyEnd, last_val p span)]).
Proof.
  intros Hord Hall Hcan Hlt Hval.
  pose proof (Hval keyBegin ltac:(lia)) as Hb.
  destruct span as [|[k1 v1] r].
  - simpl in *. subst p.
    destruct (V_eqb_spec val val); [reflexivity|contradiction].
  - pose proof (proj1 (Forall_cons_iff _ _ _) Hall) as [Hk1 Hr].
    simpl in Hk1, Hb.
    destruct (Z.ltb_spec keyBegin k1) as [Hgt|Hle].
    + subst p. destruct (V_eqb_spec val val); [|contradiction].
      exact (span_after_equal _ val keyBegin keyEnd Hord Hall Hcan Hval).
    + assert (k1 = keyBegin) as -> by lia.
      rewrite value_at_before in Hb by (destruct Hord as [Ho _]; exact Ho).
      subst v1. destruct Hcan as [Hne Hcan].
      destruct (V_eqb_spec p val); [congruence|].
      simpl. f_equal.
      apply (span_after_equal r val keyBegin keyEnd);
        [exact (ordered_tail _ _ Hord)|assumption|assumption|].
      intros k Hk. specialize (Hval k Hk). simpl in Hval.
      destruct (Z.ltb_spec k keyBegin); [lia|assumption].
Qed.

(** The value at a key of the assigned range, read on the span alone. *)
Lemma value_at_in_span d A span C keyBegin keyEnd k :
  Forall (fun e => fst e < keyBegin) A ->
  Forall (fun e => keyEnd < fst e) C ->
  keyBegin <= k < keyEnd ->
  value_at d ((A ++ span) ++ C) k = value_at (last_val d A) span k.
Proof.
  intros HA HC Hk.
  rewrite <- app_assoc, value_at_app_past, value_at_app_before; auto.
  - revert HC. apply Forall_impl. intros; lia.
  - revert HA. apply Forall_impl. intros; lia.
Qed.

(** On a redundancy-free table, assigning a range the value it already
    has leaves the table exactly as it was. *)
Lemma assign_table_redundant d m keyBegin keyEnd val :
  ordered m -> canonical d m -> keyBegin < keyEnd ->
  (forall k, keyBegin <= k < keyEnd -> value_at d m k = val) ->
  assign_table d m keyBegin keyEnd val = m.
Proof.
  intros Hord Hcan Hlt Hval. unfold assign_table.
  destruct (span_split m keyBegin keyEnd Hord ltac:(lia))
    as (span & Hsplit & Hspan).
  pose proof (firstn_lower_keys m keyBegin) as HA.
  pose proof (skipn_upper_keys m keyEnd Hord) as HC.
  pose proof (firstn_skipn (upper_bound m keyEnd) m) as Hm.
  rewrite Hsplit in *.
  set (A := firstn (lower_bound m keyBegin) m) in *.
  set (C := skipn (upper_bound m keyEnd) m) in *.
  rewrite <- Hm in Hord, Hcan.
  apply ordered_app in Hord. destruct Hord as (HordAB & _ & _).
  apply ordered_app in HordAB. destruct HordAB as (_ & Hordspan & _).
  apply canonical_app in Hcan. destruct Hcan as [Hcan _].
  apply canonical_app in Hcan. destruct Hcan as [_ Hcan].
  rewrite last_val_app.
  rewrite <- Hm, <- app_assoc. f_equal.
  rewrite app_assoc. f_equal. symmetry.
  apply span_redundant; auto.
  intros k Hk. rewrite <- (Hval k Hk), <- Hm.
  symmetry. apply (value_at_in_span d A span C keyBegin keyEnd); auto.
Qed.

(** On any non-empty ordered table, doing so never adds a boundary. *)
Lemma assign_table_redundant_length d m keyBegin keyEnd val :
  ordered m -> keyBegin < keyEnd ->
  (forall k, keyBegin <= k < keyEnd -> value_at d m k = val) ->
  (length (assign_table d m keyBegin keyEnd val) <= length m)%nat.
Proof.
  intros Hord Hlt Hval. unfold assign_table.
  destruct (span_split m keyBegin keyEnd Hord ltac:(lia))
    as (span & Hsplit & Hspan).
  pose proof (firstn_lower_keys m keyBegin) as HA.
  pose proof (skipn_upper_keys m keyEnd Hord) as HC.
  pose proof (firstn_skipn (upper_bound m keyEnd) m) as Hm.
  rewrite Hsplit in *.
  set (A := firstn (lower_bound m keyBegin) m) in *.
  set (C := skipn (upper_bound m keyEnd) m) in *.
  assert (Hb : value_at (last_val d A) span keyBegin = val).
  { rewrite <- (Hval keyBegin ltac:(lia)), <- Hm.
    symmetry. apply (value_at_in_span d A span C keyBegin keyEnd); auto. lia. }
  rewrite <- Hm, last_val_app, !length_app.
  set (p := last_val d A) in *.
  assert (Hone : forall (b : bool) (x : K * V),
            (length (if b then [] else [x]) <= 1)%nat).
  { intros [] x; simpl; lia. }
  pose proof (Hone (V_eqb p val) (keyBegin, val)) as H1.
  pose proof (Hone (V_eqb (last_val p span) val) (keyEnd, last_val p span))
    as H2.
  destruct span as [|[k1 v1] [|e2 r]]; simpl length in *; [| |lia].
  - simpl in *.
    destruct (V_eqb_spec p val); [simpl; lia|contradiction].
  - simpl in Hb. simpl last_val in *.
    destruct (Z.ltb_spec keyBegin k1).
    + destruct (V_eqb_spec p val); [simpl in *; lia|contradiction].
    + destruct (V_eqb_spec v1 val); [simpl in *; lia|contradiction].
Qed.

(** ** State-level consequences on a non-empty table *)

Lemma exec_assign_nonempty s keyBegin keyEnd val :
  ordered (m_map s) -> m_map s <> [] -> keyBegin < keyEnd ->
  exec (assign keyBegin keyEnd val) s =
  Some (Build_interval_map (m_valBegin s)
          (assign_table (m_valBegin s) (m_map s) keyBegin keyEnd val)).
Proof.
  intros Hord Hne Hlt. apply exec_assign.
  apply assign_nonempty; assumption.
Qed.

Lemma eval_lookup s key :
  eval (lookup key) s = Some (value_at (m_valBegin s) (m_map s) key).
Proof. unfold eval. rewrite lookup_value_at. reflexivity. Qed.

(** The non-empty branch of [assign] keeps the table redundancy-free. *)
Lemma assign_nonempty_canonical s keyBegin keyEnd val :
  ordered (m_map s) -> m_map s <> [] -> keyBegin < keyEnd ->
  canonical (m_valBegin s) (m_map s) ->
  exists s', exec (assign keyBegin keyEnd val) s = Some s' /\
             canonical (m_valBegin s') (m_map s').
Proof.
  intros Hord Hne Hlt Hcan. eexists. split.
  - apply exec_assign_nonempty; assumption.
  - simpl. apply canonical_assign_table; assumption.
Qed.

(** X6 (re-asserting a value).  On a non-empty redundancy-free table,
    assigning to a range the value [lookup] already returns at each of
    its keys changes nothing: the call returns the state it was given. *)
Lemma assign_nonempty_redundant s keyBegin keyEnd val :
  ordered (m_map s) -> m_map s <> [] -> keyBegin < keyEnd ->
  canonical (m_valBegin s) (m_map s) ->
  (forall k, keyBegin <= k < keyEnd -> eval (lookup k) s = Some val) ->
  exec (assign keyBegin keyEnd val) s = Some s.
Proof.
  intros Hord Hne Hlt Hcan Hval.
  rewrite exec_assign_nonempty by assumption.
  rewrite assign_table_redundant; auto.
  - destruct s; reflexivity.
  - intros k Hk. specialize (Hval k Hk). rewrite eval_lookup in Hval.
    congruence.
Qed.

(** X7 (re-asserting a value, any table).  On any non-empty ordered
    table, redundancy-free or not, assigning to a range the value
    [lookup] already returns at each of its keys never adds a boundary. *)
Lemma assign_nonempty_redundant_length s keyBegin keyEnd val :
  ordered (m_map s) -> m_map s <> [] -> keyBegin < keyEnd ->
  (forall k, keyBegin <= k < keyEnd -> eval (lookup k) s = Some val) ->
  exists s', exec (assign keyBegin keyEnd val) s = Some s' /\
             (length (m_map s') <= length (m_map s))%nat.
Proof.
  intros Hord Hne Hlt Hval. eexists. split.
  - apply exec_assign_nonempty; assumption.
  - simpl. apply assign_table_redundant_length; auto.
    intros k Hk. specialize (Hval k Hk). rewrite eval_lookup in Hval.
    congruence.
Qed.

End Facts.

(** * The specification's claims *)

Section Claims.
Context {V : Type} `{EqDec V}.
Implicit Types (val : V) (s : interval_map V).

(** C1 (range-assign correctness).  On every ordered table (so on every
    reachable state, see [reachable_ordered]), a call
    [assign(keyBegin, keyEnd, val)] with [keyBegin < keyEnd] returns, and
    afterwards [lookup(k)] is [val] for every [k] with
    [keyBegin <= k < keyEnd] and is what it was before the call for every
    other [k]. *)
Theorem assign_range_correct s (keyBegin keyEnd : K) val :
  ordered (m_map s) -> keyBegin < keyEnd ->
  exists s',
    exec (assign keyBegin keyEnd val) s = Some s' /\
    forall k : K,
      (keyBegin <= k < keyEnd -> eval (lookup k) s' = Some val) /\
      (~ keyBegin <= k < keyEnd ->
       eval (lookup k) s' = eval (lookup k) s).
Proof.
  intros Hord Hlt.
  destruct (m_map s) as [|e t] eqn:Hm.
  - eexists. split.
    + apply exec_assign. apply assign_empty; assumption.
    + intros k. rewrite !eval_lookup, Hm. simpl.
      destruct (Z.ltb_spec k keyBegin), (Z.ltb_spec k keyEnd);
        split; intros; try reflexivity; lia.
  - rewrite <- Hm in Hord. eexists. split.
    + apply exec_assign_nonempty; auto. congruence.
    + intros k. rewrite !eval_lookup. simpl.
      rewrite value_at_assign_table by assumption.
      destruct (Z.leb_spec keyBegin k), (Z.ltb_spec k keyEnd);
        simpl; split; intros; try reflexivity; lia.
Qed.

(** C4 (empty or inverted range).  When [!(keyBegin < keyEnd)], [assign]
    returns normally and does nothing: the boundary table and the default
    value are the same object state as before, hence every [lookup(k)] is
    unchanged. *)
Theorem assign_empty_range_noop s (keyBegin keyEnd : K) val :
  ~ keyBegin < keyEnd ->
  exists s',
    exec (assign keyBegin keyEnd val) s = Some s' /\
    m_map s' = m_map s /\ m_valBegin s' = m_valBegin s /\
    forall k : K, eval (lookup k) s' = eval (lookup k) s.
Proof.
  intros Hge. exists s. split; [|auto].
  apply exec_assign. apply assign_degenerate. assumption.
Qed.

(** C5 (lookup).  In every reachable state and for every key [k],
    [lookup(k)] returns a value: the default value when every stored
    boundary key is above [k], and otherwise the value paired with the
    greatest stored boundary key that is [<= k]. *)
Theorem lookup_total_greatest s (k : K) :
  reachable s ->
  exists v,
    eval (lookup k) s = Some v /\
    ((Forall (fun e => k < fst e) (m_map s) /\ v = m_valBegin s) \/
     (exists kb : K,
        In (kb, v) (m_map s) /\ kb <= k /\
        Forall (fun e => fst e <= k -> fst e <= kb) (m_map s))).
Proof.
  intros Hreach. apply reachable_ordered in Hreach.
  exists (value_at (m_valBegin s) (m_map s) k).
  split; [apply eval_lookup|].
  destruct (value_at_greatest (m_valBegin s) (m_map s) k Hreach)
    as [[Hnone Hv]|(kb & v & Hin & Hle & Hgr & Hv)].
  - left. auto.
  - right. exists kb. subst v. auto.
Qed.

(** C6 (end boundary).  For a call with [keyBegin < keyEnd] on a
    non-empty ordered table, let [valueAfterEnd] be [lookup(keyEnd)] before
    the call.  After the call a boundary is stored at [keyEnd] if and only
    if [valueAfterEnd] differs from [val], and any boundary stored at
    [keyEnd] carries [valueAfterEnd]. *)
Theorem end_boundary_iff s (keyBegin keyEnd : K) val :
  ordered (m_map s) -> m_map s <> [] -> keyBegin < keyEnd ->
  exists s' valueAfterEnd,
    eval (lookup keyEnd) s = Some valueAfterEnd /\
    exec (assign keyBegin keyEnd val) s = Some s' /\
    (has_boundary (m_map s') keyEnd <-> valueAfterEnd <> val) /\
    (forall v, In (keyEnd, v) (m_map s') -> v = valueAfterEnd).
Proof.
  intros Hord Hne Hlt.
  eexists. exists (value_at (m_valBegin s) (m_map s) keyEnd).
  split; [apply eval_lookup|].
  split; [apply exec_assign_nonempty; assumption|]. simpl.
  assert (Hin : forall v,
            In (keyEnd, v)
               (assign_table (m_valBegin s) (m_map s) keyBegin keyEnd val) ->
            v = value_at (m_valBegin s) (m_map s) keyEnd /\
            value_at (m_valBegin s) (m_map s) keyEnd <> val).
  { intros v Hin.
    apply in_assign_table in Hin; auto. simpl in Hin.
    destruct Hin as [Hk|[[Heq _]|[[Heq Hne'] |Hk]]]; try lia.
    - injection Heq as Hk _. lia.
    - injection Heq as ->. auto. }
  split; [split|].
  - intros [v Hv]. apply Hin in Hv. tauto.
  - intros Hne'. eexists. apply end_in_assign_table. assumption.
  - intros v Hv. apply Hin in Hv. tauto.
Qed.

(** C7 (begin boundary).  For a call with [keyBegin < keyEnd] on a
    non-empty ordered table, take the value in force immediately below
    [keyBegin] once the span [[keyBegin, keyEnd]] has been removed (the
    default value when no stored boundary precedes [keyBegin]).  After the
    call the boundary [(keyBegin, val)] is stored if and only if that
    value differs from [val]; when it equals [val] no boundary is stored
    at [keyBegin], and no boundary at [keyBegin] ever carries another
    value. *)
Theorem begin_boundary_iff s (keyBegin keyEnd : K) val :
  ordered (m_map s) -> m_map s <> [] -> keyBegin < keyEnd ->
  let preceding :=
    value_below (m_valBegin s) (remove_span (m_map s) keyBegin keyEnd)
      keyBegin in
  exists s',
    exec (assign keyBegin keyEnd val) s = Some s' /\
    (In (keyBegin, val) (m_map s') <-> preceding <> val) /\
    (preceding = val -> ~ has_boundary (m_map s') keyBegin) /\
    (forall v, In (keyBegin, v) (m_map s') -> v = val) /\
    (Forall (fun e => keyBegin <= fst e) (m_map s) ->
     preceding = m_valBegin s).
Proof.
  intros Hord Hne Hlt preceding.
  assert (Hpre : preceding = value_below (m_valBegin s) (m_map s) keyBegin).
  { apply value_below_remove_span. assumption. }
  eexists. split; [apply exec_assign_nonempty; assumption|]. simpl.
  assert (Hin : forall v,
            In (keyBegin, v)
               (assign_table (m_valBegin s) (m_map s) keyBegin keyEnd val) ->
            v = val /\ preceding <> val).
  { intros v Hin.
    apply in_assign_table in Hin; auto. simpl in Hin.
    destruct Hin as [Hk|[[Heq Hne']|[[Heq _] |Hk]]]; try lia.
    - injection Heq as ->. rewrite Hpre. auto.
    - injection Heq as Hk _. lia. }
  repeat split.
  - intros Hv. apply Hin in Hv. tauto.
  - intros Hne'. apply begin_in_assign_table. congruence.
  - intros Heq [v Hv]. apply Hin in Hv. tauto.
  - intros v Hv. apply Hin in Hv. tauto.
  - intros Hall. rewrite Hpre. apply value_below_none. assumption.
Qed.

(** C9 (frame).  Every call of [assign] on an ordered table returns with
    the default value it started with, and [lookup(k)] returns its value
    together with the very state it was run on: neither the default value
    nor the boundary table is touched. *)
Theorem assign_keeps_default_lookup_pure s (keyBegin keyEnd k : K) val :
  ordered (m_map s) ->
  (exists s', exec (assign keyBegin keyEnd val) s = Some s' /\
              m_valBegin s' = m_valBegin s) /\
  (exists v, lookup k s = Some (v, s)).
Proof.
  intros Hord. split.
  - destruct (assign_ordered s keyBegin keyEnd val Hord) as (s' & He & _ & Hd).
    exists s'. split; [apply exec_assign|]; assumption.
  - eexists. apply lookup_value_at.
Qed.

(** C10 (empty table).  A call with [keyBegin < keyEnd] on an empty table
    leaves exactly the two entries [(keyBegin, val)] and
    [(keyEnd, default)], whatever [val] is; when [val] is the default
    value both entries carry the default value. *)
Theorem assign_on_empty_table s (keyBegin keyEnd : K) val :
  m_map s = [] -> keyBegin < keyEnd ->
  exists s',
    exec (assign keyBegin keyEnd val) s = Some s' /\
    m_valBegin s' = m_valBegin s /\
    m_map s' = [(keyBegin, val); (keyEnd, m_valBegin s)] /\
    (val = m_valBegin s ->
     m_map s' = [(keyBegin, m_valBegin s); (keyEnd, m_valBegin s)]).
Proof.
  intros Hm Hlt. eexists. split.
  - apply exec_assign. apply assign_empty; assumption.
  - simpl. repeat split. intros ->. reflexivity.
Qed.

End Claims.

(** * The scenario of [IntervalMapTest] and concrete runs *)

(** C8 (scenario).  From a map with default ['A'], the five calls
    [assign(5,10,'B')], [assign(7,12,'C')], [assign(12,15,'D')],
    [assign(5,7,'B')], [assign(10,12,'A')] give after each of the first
    four steps the lookups the specification lists, and after the fifth
    the table is exactly [{5:B, 7:C, 10:A, 12:D, 15:A}]. *)
Theorem interval_map_test_scenario :
  (at_key imap1 4 = Some "A"%char /\ at_key imap1 5 = Some "B"%char /\
   at_key imap1 9 = Some "B"%char /\ at_key imap1 10 = Some "A"%char) /\
  (at_key imap2 6 = Some "B"%char /\ at_key imap2 7 = Some "C"%char /\
   at_key imap2 11 = Some "C"%char /\ at_key imap2 12 = Some "A"%char) /\
  (at_key imap3 12 = Some "D"%char /\ at_key imap3 14 = Some "D"%char /\
   at_key imap3 15 = Some "A"%char) /\
  (at_key imap4 5 = Some "B"%char /\ at_key imap4 6 = Some "B"%char /\
   at_key imap4 7 = Some "C"%char) /\
  imap5 = Some (Build_interval_map "A"%char
                  [(5, "B"%char); (7, "C"%char); (10, "A"%char);
                   (12, "D"%char); (15, "A"%char)]).
Proof. vm_compute. repeat split. Qed.

(** C2 (redundancy-free invariant), evaluated where it breaks.  On a
    freshly constructed map with default ['A'], [assign(1, 2, 'A')] takes
    the empty-table branch and stores [{1:A, 2:A}]: a reachable state whose
    first boundary carries the default value and whose two consecutive
    boundaries carry equal values. *)
Theorem assign_default_on_fresh_not_canonical :
  exec (assign 1 2 "A"%char) (construct "A"%char) = Some imap_AA /\
  reachable imap_AA /\
  ~ canonical (m_valBegin imap_AA) (m_map imap_AA).
Proof.
  assert (Hexec : exec (assign 1 2 "A"%char) (construct "A"%char)
                  = Some imap_AA) by reflexivity.
  split; [exact Hexec|]. split.
  - exact (reachable_assign _ _ _ _ _ (reachable_construct "A"%char) Hexec).
  - simpl. intros [Hne _]. apply Hne. reflexivity.
Qed.

(** C3 (redundant assigns never grow the table), evaluated where it
    breaks.  A freshly constructed map with default ['A'] already maps
    every key to ['A'] and stores no boundary; [assign(1, 2, 'A')]
    re-asserts that value and leaves two boundaries behind. *)
Theorem assign_default_on_fresh_grows :
  (forall k : K, eval (lookup k) (construct "A"%char) = Some "A"%char) /\
  length (m_map (construct "A"%char)) = 0%nat /\
  exec (assign 1 2 "A"%char) (construct "A"%char) = Some imap_AA /\
  length (m_map imap_AA) = 2%nat.
Proof. repeat split. Qed.

(** * Instances of the general theorems on the scenario's states *)

Lemma imap_B_ordered : ordered (m_map imap_B).
Proof. simpl. repeat split; repeat constructor; simpl; lia. Defined.

Lemma imap_B_reachable : reachable imap_B.
Proof.
  exact (reachable_assign (construct "A"%char) imap_B 5 10 "B"%char
           (reachable_construct "A"%char) eq_refl).
Defined.

Lemma assign_range_correct_witness :
  ordered (m_map imap_B) /\ 7 < 12 /\
  exists s',
    exec (assign 7 12 "C"%char) imap_B = Some s' /\
    forall k : K,
      (7 <= k < 12 -> eval (lookup k) s' = Some "C"%char) /\
      (~ 7 <= k < 12 -> eval (lookup k) s' = eval (lookup k) imap_B).
Proof.
  split; [exact imap_B_ordered|]. split; [lia|].
  apply (assign_range_correct imap_B 7 12 "C"%char); [exact imap_B_ordered|lia].
Defined.

Lemma assign_empty_range_noop_witness :
  ~ 10 < 5 /\
  exists s',
    exec (assign 10 5 "C"%char) imap_B = Some s' /\
    m_map s' = m_map imap_B /\ m_valBegin s' = m_valBegin imap_B /\
    forall k : K, eval (lookup k) s' = eval (lookup k) imap_B.
Proof.
  split; [lia|].
  apply (assign_empty_range_noop imap_B 10 5 "C"%char). lia.
Defined.

Lemma lookup_total_greatest_witness :
  reachable imap_B /\
  exists v,
    eval (lookup 7) imap_B = Some v /\
    ((Forall (fun e => 7 < fst e) (m_map imap_B) /\ v = m_valBegin imap_B) \/
     (exists kb : K,
        In (kb, v) (m_map imap_B) /\ kb <= 7 /\
        Forall (fun e => fst e <= 7 -> fst e <= kb) (m_map imap_B))).
Proof.
  split; [exact imap_B_reachable|].
  apply (lookup_total_greatest imap_B 7). exact imap_B_reachable.
Defined.

Lemma end_boundary_iff_witness :
  ordered (m_map imap_B) /\ m_map imap_B <> [] /\ 7 < 12 /\
  exists s' valueAfterEnd,
    eval (lookup 12) imap_B = Some valueAfterEnd /\
    exec (assign 7 12 "C"%char) imap_B = Some s' /\
    (has_boundary (m_map s') 12 <-> valueAfterEnd <> "C"%char) /\
    (forall v, In (12, v) (m_map s') -> v = valueAfterEnd).
Proof.
  split; [exact imap_B_ordered|]. split; [discriminate|]. split; [lia|].
  apply (end_boundary_iff imap_B 7 12 "C"%char);
    [exact imap_B_ordered|discriminate|lia].
Defined.

Lemma begin_boundary_iff_witness :
  ordered (m_map imap_B) /\ m_map imap_B <> [] /\ 7 < 12 /\
  exists s',
    exec (assign 7 12 "C"%char) imap_B = Some s' /\
    (In (7, "C"%char) (m_map s') <-> "B"%char <> "C"%char) /\
    ("B"%char = "C"%char -> ~ has_boundary (m_map s') 7) /\
    (forall v, In (7, v) (m_map s') -> v = "C"%char) /\
    (Forall (fun e => 7 <= fst e) (m_map imap_B) ->
     "B"%char = m_valBegin imap_B).
Proof.
  split; [exact imap_B_ordered|]. split; [discriminate|]. split; [lia|].
  apply (begin_boundary_iff imap_B 7 12 "C"%char);
    [exact imap_B_ordered|discriminate|lia].
Defined.

Lemma assign_keeps_default_lookup_pure_witness :
  ordered (m_map imap_B) /\
  (exists s', exec (assign 7 12 "C"%char) imap_B = Some s' /\
              m_valBegin s' = m_valBegin imap_B) /\
  (exists v, lookup 6 imap_B = Some (v, imap_B)).
Proof.
  split; [exact imap_B_ordered|].
  apply (assign_keeps_default_lookup_pure imap_B 7 12 6 "C"%char).
  exact imap_B_ordered.
Defined.

Lemma assign_on_empty_table_witness :
  m_map (construct "A"%char) = [] /\ 1 < 2 /\
  exists s',
    exec (assign 1 2 "A"%char) (construct "A"%char) = Some s' /\
    m_valBegin s' = "A"%char /\
    m_map s' = [(1, "A"%char); (2, "A"%char)] /\
    ("A"%char = "A"%char ->
     m_map s' = [(1, "A"%char); (2, "A"%char)]).
Proof.
  split; [reflexivity|]. split; [lia|].
  apply (assign_on_empty_table (construct "A"%char) 1 2 "A"%char);
    [reflexivity|lia].
Defined.

(** * Further properties of the code *)

Section Further.
Context {V : Type} `{EqDec V}.
Implicit Types (m t : std_map V) (d v val : V) (k key : K) (e : K * V).
Implicit Types (i j : iterator) (s : interval_map V).

(** ** The three ways a call of [assign] ends *)

Lemma exec_assign_cases s keyBegin keyEnd val s' :
  ordered (m_map s) ->
  exec (assign keyBegin keyEnd val) s = Some s' ->
  (~ keyBegin < keyEnd /\ s' = s) \/
  (keyBegin < keyEnd /\ m_map s = [] /\
   s' = Build_interval_map (m_valBegin s)
          [(keyBegin, val); (keyEnd, m_valBegin s)]) \/
  (keyBegin < keyEnd /\ m_map s <> [] /\
   s' = Build_interval_map (m_valBegin s)
          (assign_table (m_valBegin s) (m_map s) keyBegin keyEnd val)).
Proof.
  intros Hord Hexec. apply exec_assign in Hexec.
  destruct (Z.lt_ge_cases keyBegin keyEnd) as [Hlt|Hge].
  - destruct (m_map s) as [|e0 t] eqn:Hm.
    + right. left. rewrite assign_empty in Hexec by assumption.
      split; [assumption|]. split; [reflexivity|]. congruence.
    + right. right. rewrite <- Hm in *.
      assert (Hne : m_map s <> []) by (rewrite Hm; discriminate).
      rewrite assign_nonempty in Hexec by assumption.
      split; [assumption|]. split; [assumption|]. congruence.
  - left. rewrite assign_degenerate in Hexec by lia.
    split; [lia|congruence].
Qed.

(** The empty-table branch stores what [assign_table] describes exactly
    when the value differs from the default. *)
Lemma assign_table_nil d keyBegin keyEnd val :
  val <> d ->
  assign_table d [] keyBegin keyEnd val = [(keyBegin, val); (keyEnd, d)].
Proof.
  intros Hne. unfold assign_table. simpl.
  destruct (V_eqb_spec d val); [congruence|reflexivity].
Qed.

(** ** Lookups after any call *)

Lemma lookup_after_assign s keyBegin keyEnd val s' k :
  ordered (m_map s) ->
  exec (assign keyBegin keyEnd val) s = Some s' ->
  value_at (m_valBegin s') (m_map s') k =
  if (keyBegin <=? k) && (k <? keyEnd) then val
  else value_at (m_valBegin s) (m_map s) k.
Proof.
  intros Hord Hexec.
  destruct (exec_assign_cases _ _ _ _ _ Hord Hexec)
    as [[Hge ->]|[(Hlt & Hm & ->)|(Hlt & Hne & ->)]].
  - destruct (Z.leb_spec keyBegin k), (Z.ltb_spec k keyEnd);
      simpl; try reflexivity. lia.
  - simpl. rewrite Hm. simpl.
    destruct (Z.ltb_spec k keyBegin), (Z.ltb_spec k keyEnd),
      (Z.leb_spec keyBegin k); simpl; try reflexivity; lia.
  - simpl. apply value_at_assign_table; assumption.
Qed.

Lemma value_at_stored d m k v :
  ordered m -> In (k, v) m -> value_at d m k = v.
Proof.
  revert d. induction m as [|[k' v'] t IH]; intros d Hord Hin.
  - contradiction.
  - simpl. destruct Hin as [Heq|Hin].
    + injection Heq as -> ->.
      destruct (Z.ltb_spec k k); [lia|].
      apply value_at_before. destruct Hord as [Hall _]. exact Hall.
    + pose proof (ordered_head_lt _ _ _ Hord Hin) as Hlt. simpl in Hlt.
      destruct (Z.ltb_spec k k'); [lia|].
      apply IH; [exact (ordered_tail _ _ Hord)|assumption].
Qed.

(** ** The table before and after the erased span *)

Lemma table_parts m keyBegin keyEnd :
  ordered m -> keyBegin <= keyEnd ->
  exists span,
    m = firstn (lower_bound m keyBegin) m ++ span
        ++ skipn (upper_bound m keyEnd) m /\
    firstn (upper_bound m keyEnd) m
    = firstn (lower_bound m keyBegin) m ++ span /\
    Forall (fun e => keyBegin <= fst e <= keyEnd) span.
Proof.
  intros Hord Hle.
  destruct (span_split m keyBegin keyEnd Hord Hle) as (span & Hsplit & Hspan).
  exists span. split; [|split; assumption].
  rewrite app_assoc, <- Hsplit. symmetry. apply firstn_skipn.
Qed.

Lemma in_patch (b : bool) (x y : K * V) :
  In y (if b then [] else [x]) -> y = x.
Proof. destruct b; simpl; intuition. Qed.

Lemma in_assign_table_outside d m keyBegin keyEnd val e :
  ordered m -> keyBegin < keyEnd ->
  fst e < keyBegin \/ keyEnd < fst e ->
  (In e (assign_table d m keyBegin keyEnd val) <-> In e m).
Proof.
  intros Hord Hlt Hout.
  destruct (table_parts m keyBegin keyEnd Hord ltac:(lia))
    as (span & Hm & _ & Hspan).
  unfold assign_table.
  set (Ib := if V_eqb _ val then [] else [(keyBegin, val)]).
  set (Ie := if V_eqb _ val then [] else [(keyEnd, _)]).
  assert (HIb : forall x, In x Ib -> fst x = keyBegin).
  { intros x Hin. apply in_patch in Hin. subst x. reflexivity. }
  assert (HIe : forall x, In x Ie -> fst x = keyEnd).
  { intros x Hin. apply in_patch in Hin. subst x. reflexivity. }
  assert (Hparts : In e m <->
                   In e (firstn (lower_bound m keyBegin) m ++ span
                         ++ skipn (upper_bound m keyEnd) m))
    by (rewrite <- Hm; tauto).
  rewrite Hparts, !in_app_iff.
  rewrite Forall_forall in Hspan.
  split.
  - intros [Hin|[Hin|[Hin|Hin]]]; auto.
    + apply HIb in Hin. lia.
    + apply HIe in Hin. lia.
  - intros [Hin|[Hin|Hin]]; auto.
    apply Hspan in Hin. lia.
Qed.

Lemma length_patch (b : bool) (x : K * V) :
  (length (if b then [] else [x]) <= 1)%nat.
Proof. destruct b; simpl; lia. Qed.

Lemma length_assign_table d m keyBegin keyEnd val :
  ordered m -> keyBegin < keyEnd ->
  (length (assign_table d m keyBegin keyEnd val) <= length m + 2)%nat.
Proof.
  intros Hord Hlt.
  destruct (table_parts m keyBegin keyEnd Hord ltac:(lia))
    as (span & Hm & _ & _).
  apply (f_equal (@length _)) in Hm.
  unfold assign_table. rewrite !length_app in *.
  pose proof (length_patch
                (V_eqb (last_val d (firstn (lower_bound m keyBegin) m)) val)
                (keyBegin, val)).
  pose proof (length_patch
                (V_eqb (last_val d (firstn (upper_bound m keyEnd) m)) val)
                (keyEnd, last_val d (firstn (upper_bound m keyEnd) m))).
  lia.
Qed.

(** Whatever is kept or inserted up to [keyEnd] ends on the value that
    was in force at [keyEnd]. *)
Lemma last_val_patch d A span keyBegin keyEnd val :
  last_val d
    (A ++ (if V_eqb (last_val d A) val then [] else [(keyBegin, val)])
       ++ (if V_eqb (last_val d (A ++ span)) val then []
           else [(keyEnd, last_val d (A ++ span))]))
  = last_val d (A ++ span).
Proof.
  rewrite !last_val_app.
  destruct (V_eqb_spec (last_val d A) val) as [Hp|Hp];
    destruct (V_eqb_spec (last_val (last_val d A) span) val) as [He|He];
    simpl; congruence.
Qed.

Lemma last_val_assign_table d m keyBegin keyEnd val :
  ordered m -> keyBegin < keyEnd ->
  last_val d (assign_table d m keyBegin keyEnd val) = last_val d m.
Proof.
  intros Hord Hlt.
  destruct (table_parts m keyBegin keyEnd Hord ltac:(lia))
    as (span & Hm & Hsplit & _).
  unfold assign_table. rewrite Hsplit.
  set (A := firstn (lower_bound m keyBegin) m) in *.
  set (C := skipn (upper_bound m keyEnd) m) in *.
  rewrite Hm. rewrite !app_assoc, last_val_app.
  rewrite <- app_assoc, last_val_patch.
  rewrite (last_val_app d (A ++ span) C). reflexivity.
Qed.

Lemma reachable_last_val s :
  reachable s -> last_val (m_valBegin s) (m_map s) = m_valBegin s.
Proof.
  induction 1 as [val|s s' keyBegin keyEnd val Hreach IH Hexec].
  - reflexivity.
  - pose proof (reachable_ordered s Hreach) as Hord.
    destruct (exec_assign_cases _ _ _ _ _ Hord Hexec)
      as [[Hge ->]|[(Hlt & Hm & ->)|(Hlt & Hne & ->)]]; simpl; auto.
    rewrite last_val_assign_table; assumption.
Qed.

(** ** Redundancy-free tables are determined by their lookups *)

Lemma canonical_unique d m1 m2 :
  ordered m1 -> ordered m2 -> canonical d m1 -> canonical d m2 ->
  (forall k, value_at d m1 k = value_at d m2 k) ->
  m1 = m2.
Proof.
  revert d m2. induction m1 as [|[k1 v1] t1 IH]; intros d m2 Ho1 Ho2 Hc1 Hc2 Hv;
    destruct m2 as [|[k2 v2] t2].
  - reflexivity.
  - specialize (Hv k2).
    rewrite (value_at_stored d _ k2 v2 Ho2 (or_introl eq_refl)) in Hv.
    simpl in Hv, Hc2. destruct Hc2 as [Hne _]. congruence.
  - specialize (Hv k1).
    rewrite (value_at_stored d _ k1 v1 Ho1 (or_introl eq_refl)) in Hv.
    simpl in Hv, Hc1. destruct Hc1 as [Hne _]. congruence.
  - pose proof (value_at_stored d _ k1 v1 Ho1 (or_introl eq_refl)) as H1.
    pose proof (value_at_stored d _ k2 v2 Ho2 (or_introl eq_refl)) as H2.
    destruct Hc1 as [Hne1 Hc1]. destruct Hc2 as [Hne2 Hc2].
    assert (k1 = k2) as <-.
    { pose proof (Hv k1) as Ha. pose proof (Hv k2) as Hb.
      rewrite H1 in Ha. rewrite H2 in Hb. simpl in Ha, Hb.
      destruct (Z.ltb_spec k1 k2); [congruence|].
      destruct (Z.ltb_spec k2 k1); [congruence|]. lia. }
    assert (v1 = v2) as <- by congruence.
    f_equal. apply (IH v1);
      [exact (ordered_tail _ _ Ho1)|exact (ordered_tail _ _ Ho2)
      |assumption|assumption|].
    intros k. destruct (Z.ltb_spec k k1) as [Hlt|Hge].
    + rewrite !value_at_before; auto.
      * destruct Ho2 as [Hall _]. revert Hall. apply Forall_impl.
        simpl. intros; lia.
      * destruct Ho1 as [Hall _]. revert Hall. apply Forall_impl.
        simpl. intros; lia.
    + specialize (Hv k). simpl in Hv.
      destruct (Z.ltb_spec k k1); [lia|assumption].
Qed.

(** ** Positions in a table given in two parts *)

Lemma lower_bound_app_exact l1 l2 k :
  Forall (fun e => fst e < k) l1 -> Forall (fun e => k <= fst e) l2 ->
  lower_bound (l1 ++ l2) k = length l1.
Proof.
  intros H1 H2. induction l1 as [|[k1 v1] t IH]; simpl.
  - destruct l2 as [|[k2 v2] t2]; simpl; auto.
    pose proof (proj1 (Forall_cons_iff _ _ _) H2) as [Hk _]. simpl in Hk.
    destruct (Z.ltb_spec k2 k); auto; lia.
  - pose proof (proj1 (Forall_cons_iff _ _ _) H1) as [Hk Ht]. simpl in Hk.
    destruct (Z.ltb_spec k1 k); [|lia]. rewrite IH; auto.
Qed.

Lemma upper_bound_app_exact l1 l2 k :
  Forall (fun e => fst e <= k) l1 -> Forall (fun e => k < fst e) l2 ->
  upper_bound (l1 ++ l2) k = length l1.
Proof.
  intros H1 H2. induction l1 as [|[k1 v1] t IH]; simpl.
  - destruct l2 as [|[k2 v2] t2]; simpl; auto.
    pose proof (proj1 (Forall_cons_iff _ _ _) H2) as [Hk _]. simpl in Hk.
    destruct (Z.ltb_spec k k2); auto; lia.
  - pose proof (proj1 (Forall_cons_iff _ _ _) H1) as [Hk Ht]. simpl in Hk.
    destruct (Z.ltb_spec k k1); [lia|]. rewrite IH; auto.
Qed.

Lemma firstn_app_exact {A} (l1 l2 : list A) :
  firstn (length l1) (l1 ++ l2) = l1.
Proof. induction l1; simpl; [destruct l2; reflexivity|congruence]. Qed.

Lemma skipn_app_exact {A} (l1 l2 : list A) :
  skipn (length l1) (l1 ++ l2) = l2.
Proof. induction l1; simpl; auto. Qed.

(** The table [assign] leaves is a fixed point of the same call. *)
Lemma assign_table_idem d m keyBegin keyEnd val :
  ordered m -> keyBegin < keyEnd ->
  assign_table d (assign_table d m keyBegin keyEnd val) keyBegin keyEnd val
  = assign_table d m keyBegin keyEnd val.
Proof.
  intros Hord Hlt.
  destruct (table_parts m keyBegin keyEnd Hord ltac:(lia))
    as (span & _ & Hsplit & _).
  pose proof (firstn_lower_keys m keyBegin) as HA.
  pose proof (skipn_upper_keys m keyEnd Hord) as HC.
  unfold assign_table at 2 3. rewrite Hsplit.
  set (A := firstn (lower_bound m keyBegin) m) in *.
  set (C := skipn (upper_bound m keyEnd) m) in *.
  set (Ib := if V_eqb (last_val d A) val then [] else [(keyBegin, val)]).
  set (Ie := if V_eqb (last_val d (A ++ span)) val then []
             else [(keyEnd, last_val d (A ++ span))]).
  assert (HIb : Forall (fun e => fst e = keyBegin) Ib).
  { apply Forall_forall. intros x Hin. apply in_patch in Hin.
    subst x. reflexivity. }
  assert (HIe : Forall (fun e => fst e = keyEnd) Ie).
  { apply Forall_forall. intros x Hin. apply in_patch in Hin.
    subst x. reflexivity. }
  assert (Hlb : lower_bound (A ++ Ib ++ Ie ++ C) keyBegin = length A).
  { apply lower_bound_app_exact; [assumption|].
    repeat (apply Forall_app; split).
    - revert HIb. apply Forall_impl. intros; lia.
    - revert HIe. apply Forall_impl. intros; lia.
    - revert HC. apply Forall_impl. intros; lia. }
  assert (Hub : upper_bound ((A ++ Ib ++ Ie) ++ C) keyEnd
                = length (A ++ Ib ++ Ie)).
  { apply upper_bound_app_exact; [|assumption].
    repeat (apply Forall_app; split).
    - revert HA. apply Forall_impl. intros; lia.
    - revert HIb. apply Forall_impl. intros; lia.
    - revert HIe. apply Forall_impl. intros; lia. }
  assert (Hshape : A ++ Ib ++ Ie ++ C = (A ++ Ib ++ Ie) ++ C)
    by (rewrite <- !app_assoc; reflexivity).
  unfold assign_table.
  rewrite Hlb, firstn_app_exact.
  rewrite Hshape, Hub, firstn_app_exact, skipn_app_exact.
  assert (Hpatch : last_val d (A ++ Ib ++ Ie) = last_val d (A ++ span))
    by apply last_val_patch.
  rewrite Hpatch, <- !app_assoc. reflexivity.
Qed.

(** Assigning the default value over every stored boundary of a table
    that ends on the default value leaves no boundary. *)
Lemma assign_table_clear d m keyBegin keyEnd :
  Forall (fun e => keyBegin <= fst e <= keyEnd) m ->
  last_val d m = d ->
  assign_table d m keyBegin keyEnd d = [].
Proof.
  intros Hall Hlast. unfold assign_table.
  assert (Hlb : lower_bound m keyBegin = 0%nat).
  { apply (lower_bound_app_exact [] m keyBegin); [constructor|].
    revert Hall. apply Forall_impl. intros; lia. }
  assert (Hub : upper_bound m keyEnd = length m).
  { rewrite <- (app_nil_r m) at 1.
    apply upper_bound_app_exact; [|constructor].
    revert Hall. apply Forall_impl. intros; lia. }
  rewrite Hlb, Hub, firstn_all, skipn_all, Hlast. simpl.
  destruct (V_eqb_spec d d); [reflexivity|contradiction].
Qed.

(** ** Calls made one after another *)

Lemma written_ext (f g : K -> V) calls k :
  (forall k', f k' = g k') -> written f calls k = written g calls k.
Proof.
  revert f g. induction calls as [|[[b e] v] rest IH]; intros f g Hfg; simpl.
  - apply Hfg.
  - apply IH. intros k'. rewrite Hfg. reflexivity.
Qed.

Lemma assign_all_spec calls s :
  ordered (m_map s) ->
  exists s',
    exec (assign_all calls) s = Some s' /\
    ordered (m_map s') /\ m_valBegin s' = m_valBegin s /\
    forall k, value_at (m_valBegin s') (m_map s') k
              = written (value_at (m_valBegin s) (m_map s)) calls k.
Proof.
  revert s. induction calls as [|[[b e] v] rest IH]; intros s Hord.
  - exists s. repeat split; auto.
  - destruct (assign_ordered s b e v Hord) as (s1 & Ha & Ho1 & Hd1).
    destruct (IH s1 Ho1) as (s' & He & Ho & Hd & Hv).
    exists s'. split; [|split; [assumption|split; [congruence|]]].
    + simpl. unfold exec in *. rewrite (bind_eq _ _ _ _ _ Ha). assumption.
    + intros k. rewrite Hv. simpl. apply written_ext.
      intros k'. apply lookup_after_assign; [assumption|].
      apply exec_assign. assumption.
Qed.

End Further.

Section Extras.
Context {V : Type} `{EqDec V}.
Implicit Types (m : std_map V) (val : V) (s : interval_map V).

(** X1 (start of the erased span).  On a non-empty ordered table and for
    [keyBegin < keyEnd], the backward walk of [assign] started just before
    [upper_bound(keyEnd)] stops at a position that can be dereferenced,
    and after the adjusting increment [itStart] is the first position
    whose key is not less than [keyBegin]; that position is not past
    [itEnd], so the range handed to [erase] is valid. *)
Theorem span_start_is_lower_bound m (keyBegin keyEnd : K) :
  ordered m -> m <> [] -> keyBegin < keyEnd ->
  let itEnd := upper_bound m keyEnd in
  exists (j itStart : iterator) (e : K * V),
    walk_back m keyBegin (Nat.pred itEnd) = Some j /\
    deref m j = Some e /\
    (if (fst e <? keyBegin) && negb (j =? itEnd)%nat
     then inc m j else Some j) = Some itStart /\
    (itStart <= itEnd <= map_end m)%nat /\
    (forall i e', deref m i = Some e' ->
                  ((i < itStart)%nat <-> fst e' < keyBegin)).
Proof.
  intros Hord Hne Hlt itEnd.
  destruct (find_start m keyBegin keyEnd Hord Hne Hlt) as (j & e & Hw & Hd & Ha).
  exists j, (lower_bound m keyBegin), e.
  split; [exact Hw|]. split; [exact Hd|]. split; [exact Ha|]. split.
  - split; [apply lower_le_upper; lia|apply upper_bound_le].
  - intros i e' Hi. apply nth_lower_bound; assumption.
Qed.

(** X2 (boundaries outside the span).  Whatever the call, a boundary
    whose key is below [keyBegin] or above [keyEnd] is stored after
    [assign(keyBegin, keyEnd, val)] exactly when it was stored before,
    with the same value. *)
Theorem assign_keeps_outside_boundaries s (keyBegin keyEnd : K) val :
  ordered (m_map s) ->
  exists s',
    exec (assign keyBegin keyEnd val) s = Some s' /\
    forall (k : K) (v : V),
      k < keyBegin \/ keyEnd < k ->
      (In (k, v) (m_map s') <-> In (k, v) (m_map s)).
Proof.
  intros Hord.
  destruct (assign_ordered s keyBegin keyEnd val Hord) as (s' & Ha & _ & _).
  apply exec_assign in Ha. exists s'. split; [assumption|].
  intros k v Hout.
  destruct (exec_assign_cases _ _ _ _ _ Hord Ha)
    as [[Hge ->]|[(Hlt & Hm & ->)|(Hlt & Hne & ->)]].
  - tauto.
  - rewrite Hm. simpl. split; [|tauto].
    intros [Heq|[Heq|[]]]; injection Heq as Hk _; lia.
  - simpl. apply in_assign_table_outside; assumption.
Qed.

(** X3 (inside the span).  After a call with [keyBegin < keyEnd] no
    boundary is stored at a key strictly between [keyBegin] and
    [keyEnd]. *)
Theorem assign_leaves_nothing_inside s (keyBegin keyEnd : K) val :
  ordered (m_map s) -> keyBegin < keyEnd ->
  exists s',
    exec (assign keyBegin keyEnd val) s = Some s' /\
    forall (k : K) (v : V),
      In (k, v) (m_map s') -> ~ keyBegin < k < keyEnd.
Proof.
  intros Hord Hlt.
  destruct (assign_ordered s keyBegin keyEnd val Hord) as (s' & Ha & _ & _).
  apply exec_assign in Ha. exists s'. split; [assumption|].
  intros k v Hin.
  destruct (exec_assign_cases _ _ _ _ _ Hord Ha)
    as [[Hge ->]|[(_ & Hm & ->)|(_ & Hne & ->)]].
  - lia.
  - simpl in Hin. destruct Hin as [Heq|[Heq|[]]]; injection Heq as Hk _; lia.
  - simpl in Hin. apply in_assign_table in Hin; auto. simpl in Hin.
    destruct Hin as [Hk|[[Heq _]|[[Heq _]|Hk]]]; try lia;
      injection Heq as Hk _; lia.
Qed.

(** X4 (growth).  A call of [assign] adds at most two boundaries to the
    table. *)
Theorem assign_adds_at_most_two s (keyBegin keyEnd : K) val :
  ordered (m_map s) ->
  exists s',
    exec (assign keyBegin keyEnd val) s = Some s' /\
    (length (m_map s') <= length (m_map s) + 2)%nat.
Proof.
  intros Hord.
  destruct (assign_ordered s keyBegin keyEnd val Hord) as (s' & Ha & _ & _).
  apply exec_assign in Ha. exists s'. split; [assumption|].
  destruct (exec_assign_cases _ _ _ _ _ Hord Ha)
    as [[Hge ->]|[(_ & Hm & ->)|(Hlt & Hne & ->)]].
  - lia.
  - rewrite Hm. simpl. lia.
  - simpl. apply length_assign_table; assumption.
Qed.

(** X5 (redundancy-free form kept).  If no two consecutive boundaries
    carry equal values and the first one does not carry the default
    value, the same holds after [assign], except possibly when a
    non-empty range is assigned the default value on an empty table. *)
Theorem assign_keeps_canonical s (keyBegin keyEnd : K) val :
  ordered (m_map s) -> canonical (m_valBegin s) (m_map s) ->
  (m_map s = [] -> keyBegin < keyEnd -> val <> m_valBegin s) ->
  exists s',
    exec (assign keyBegin keyEnd val) s = Some s' /\
    canonical (m_valBegin s') (m_map s').
Proof.
  intros Hord Hcan Hdef.
  destruct (assign_ordered s keyBegin keyEnd val Hord) as (s' & Ha & _ & _).
  apply exec_assign in Ha. exists s'. split; [assumption|].
  destruct (exec_assign_cases _ _ _ _ _ Hord Ha)
    as [[Hge ->]|[(Hlt & Hm & ->)|(Hlt & Hne & ->)]].
  - assumption.
  - specialize (Hdef Hm Hlt). simpl. repeat split; auto.
  - simpl. apply canonical_assign_table; assumption.
Qed.

(** X8 (same call twice).  When a call with [keyBegin < keyEnd] leaves a
    non-empty table, and was not an assignment of the default value on an
    empty table, making the same call again changes nothing. *)
Theorem assign_twice_same s (keyBegin keyEnd : K) val :
  ordered (m_map s) -> keyBegin < keyEnd ->
  (m_map s = [] -> val <> m_valBegin s) ->
  exists s',
    exec (assign keyBegin keyEnd val) s = Some s' /\
    (m_map s' <> [] -> exec (assign keyBegin keyEnd val) s' = Some s').
Proof.
  intros Hord Hlt Hdef.
  assert (Hshape : exec (assign keyBegin keyEnd val) s
                   = Some (Build_interval_map (m_valBegin s)
                             (assign_table (m_valBegin s) (m_map s)
                                keyBegin keyEnd val))).
  { destruct (m_map s) as [|e0 t] eqn:Hm.
    - apply exec_assign. rewrite assign_empty by assumption.
      rewrite assign_table_nil by auto. reflexivity.
    - rewrite <- Hm in *. apply exec_assign_nonempty; auto.
      rewrite Hm. discriminate. }
  eexists. split; [exact Hshape|]. simpl. intros Hne.
  rewrite exec_assign_nonempty; simpl; auto.
  - rewrite assign_table_idem by assumption. reflexivity.
  - apply ordered_assign_table; assumption.
Qed.

(** X9 (beyond the last boundary).  In every reachable state the last
    stored boundary carries the default value: [lookup(k)] is the default
    value for every key [k] that no stored key exceeds. *)
Theorem lookup_past_last_boundary s (k : K) :
  reachable s ->
  Forall (fun e => fst e <= k) (m_map s) ->
  eval (lookup k) s = Some (m_valBegin s).
Proof.
  intros Hreach Hall. rewrite eval_lookup.
  rewrite value_at_past by assumption.
  rewrite reachable_last_val by assumption. reflexivity.
Qed.

(** X10 (one table per step function).  Two ordered redundancy-free
    tables over the same default value on which [lookup] agrees at every
    key are the same table. *)
Theorem canonical_table_unique (s1 s2 : interval_map V) :
  ordered (m_map s1) -> ordered (m_map s2) ->
  canonical (m_valBegin s1) (m_map s1) ->
  canonical (m_valBegin s2) (m_map s2) ->
  m_valBegin s1 = m_valBegin s2 ->
  (forall k : K, eval (lookup k) s1 = eval (lookup k) s2) ->
  s1 = s2.
Proof.
  intros Ho1 Ho2 Hc1 Hc2 Hd Hv.
  destruct s1 as [d1 m1], s2 as [d2 m2]. simpl in *. subst d2.
  f_equal. apply (canonical_unique d1); auto.
  intros k. specialize (Hv k). rewrite !eval_lookup in Hv. simpl in Hv.
  congruence.
Qed.

(** X11 (a sequence of calls).  Any sequence of [assign] calls made on a
    freshly constructed map returns, and afterwards [lookup(k)] is the
    value of the last call whose range [[keyBegin, keyEnd)] holds [k], or
    the constructor's value when no call's range holds [k]. *)
Theorem assign_all_lookup (calls : list (K * K * V)) (val : V) :
  exists s',
    exec (assign_all calls) (construct val) = Some s' /\
    m_valBegin s' = val /\
    forall k : K,
      eval (lookup k) s' = Some (written (fun _ => val) calls k).
Proof.
  destruct (assign_all_spec calls (construct val) I)
    as (s' & He & _ & Hd & Hv).
  exists s'. split; [assumption|]. split; [assumption|].
  intros k. rewrite eval_lookup, Hv. reflexivity.
Qed.

(** X12 (disjoint ranges commute).  Two calls whose ranges do not overlap
    can be made in either order: both orders return and [lookup] cannot
    tell the results apart. *)
Theorem disjoint_assigns_commute s (b1 e1 b2 e2 : K) (v1 v2 : V) :
  ordered (m_map s) -> e1 <= b2 \/ e2 <= b1 ->
  exists s12 s21,
    exec (assign b1 e1 v1 ;; assign b2 e2 v2) s = Some s12 /\
    exec (assign b2 e2 v2 ;; assign b1 e1 v1) s = Some s21 /\
    forall k : K, eval (lookup k) s12 = eval (lookup k) s21.
Proof.
  intros Hord Hdis.
  destruct (assign_ordered s b1 e1 v1 Hord) as (s1 & Ha1 & Ho1 & _).
  destruct (assign_ordered s1 b2 e2 v2 Ho1) as (s12 & Ha12 & _ & _).
  destruct (assign_ordered s b2 e2 v2 Hord) as (s2 & Ha2 & Ho2 & _).
  destruct (assign_ordered s2 b1 e1 v1 Ho2) as (s21 & Ha21 & _ & _).
  exists s12, s21. split; [|split].
  - unfold exec. rewrite (bind_eq _ _ _ _ _ Ha1), Ha12. reflexivity.
  - unfold exec. rewrite (bind_eq _ _ _ _ _ Ha2), Ha21. reflexivity.
  - intros k. rewrite !eval_lookup. f_equal.
    apply exec_assign in Ha1, Ha12, Ha2, Ha21.
    rewrite (lookup_after_assign _ _ _ _ _ k Ho1 Ha12).
    rewrite (lookup_after_assign _ _ _ _ _ k Hord Ha1).
    rewrite (lookup_after_assign _ _ _ _ _ k Ho2 Ha21).
    rewrite (lookup_after_assign _ _ _ _ _ k Hord Ha2).
    destruct (Z.leb_spec b1 k), (Z.ltb_spec k e1),
      (Z.leb_spec b2 k), (Z.ltb_spec k e2); simpl; try reflexivity; lia.
Qed.

(** X13 (lookup at a stored key).  On an ordered table, [lookup] at the
    key of a stored boundary returns the value stored with it. *)
Theorem lookup_at_stored_boundary s (k : K) (v : V) :
  ordered (m_map s) -> In (k, v) (m_map s) ->
  eval (lookup k) s = Some v.
Proof.
  intros Hord Hin. rewrite eval_lookup. f_equal.
  apply value_at_stored; assumption.
Qed.

(** X14 (clearing).  In a reachable state with a non-empty table,
    assigning the default value over a range that holds every stored key
    leaves the table empty. *)
Theorem assign_default_over_all_clears s (keyBegin keyEnd : K) :
  reachable s -> m_map s <> [] -> keyBegin < keyEnd ->
  Forall (fun e => keyBegin <= fst e <= keyEnd) (m_map s) ->
  exec (assign keyBegin keyEnd (m_valBegin s)) s
  = Some (construct (m_valBegin s)).
Proof.
  intros Hreach Hne Hlt Hall.
  pose proof (reachable_ordered s Hreach) as Hord.
  pose proof (reachable_last_val s Hreach) as Hlast.
  rewrite exec_assign_nonempty by assumption.
  rewrite assign_table_clear by assumption.
  reflexivity.
Qed.

End Extras.

(** * Instances of the further theorems *)

Lemma imap_B_canonical : canonical (m_valBegin imap_B) (m_map imap_B).
Proof. simpl. repeat split; discriminate. Defined.

Lemma imap_B_nonempty : m_map imap_B <> [].
Proof. discriminate. Defined.

Lemma imap_B_is_B (k : K) : 6 <= k < 8 -> eval (lookup k) imap_B = Some "B"%char.
Proof.
  intros Hk. rewrite eval_lookup. simpl.
  destruct (Z.ltb_spec k 5); [lia|].
  destruct (Z.ltb_spec k 10); [reflexivity|lia].
Defined.

Lemma span_start_is_lower_bound_witness :
  ordered (m_map imap_B) /\ m_map imap_B <> [] /\ 7 < 12 /\
  exists (j itStart : iterator) (e : K * ascii),
    walk_back (m_map imap_B) 7 1 = Some j /\
    deref (m_map imap_B) j = Some e /\
    (if (fst e <? 7) && negb (j =? 2)%nat
     then inc (m_map imap_B) j else Some j) = Some itStart /\
    (itStart <= 2 <= map_end (m_map imap_B))%nat /\
    (forall i e', deref (m_map imap_B) i = Some e' ->
                  ((i < itStart)%nat <-> fst e' < 7)).
Proof.
  split; [exact imap_B_ordered|]. split; [exact imap_B_nonempty|].
  split; [lia|].
  apply (span_start_is_lower_bound (m_map imap_B) 7 12);
    [exact imap_B_ordered|exact imap_B_nonempty|lia].
Defined.

Lemma assign_keeps_outside_boundaries_witness :
  ordered (m_map imap_B) /\
  exists s',
    exec (assign 7 12 "C"%char) imap_B = Some s' /\
    forall (k : K) (v : ascii),
      k < 7 \/ 12 < k ->
      (In (k, v) (m_map s') <-> In (k, v) (m_map imap_B)).
Proof.
  split; [exact imap_B_ordered|].
  apply (assign_keeps_outside_boundaries imap_B 7 12 "C"%char).
  exact imap_B_ordered.
Defined.

Lemma assign_leaves_nothing_inside_witness :
  ordered (m_map imap_B) /\ 7 < 12 /\
  exists s',
    exec (assign 7 12 "C"%char) imap_B = Some s' /\
    forall (k : K) (v : ascii), In (k, v) (m_map s') -> ~ 7 < k < 12.
Proof.
  split; [exact imap_B_ordered|]. split; [lia|].
  apply (assign_leaves_nothing_inside imap_B 7 12 "C"%char);
    [exact imap_B_ordered|lia].
Defined.

Lemma assign_adds_at_most_two_witness :
  ordered (m_map imap_B) /\
  exists s',
    exec (assign 6 8 "C"%char) imap_B = Some s' /\
    (length (m_map s') <= length (m_map imap_B) + 2)%nat.
Proof.
  split; [exact imap_B_ordered|].
  apply (assign_adds_at_most_two imap_B 6 8 "C"%char).
  exact imap_B_ordered.
Defined.

Lemma assign_keeps_canonical_witness :
  ordered (m_map imap0) /\ canonical (m_valBegin imap0) (m_map imap0) /\
  (m_map imap0 = [] -> 1 < 2 -> "B"%char <> m_valBegin imap0) /\
  exists s',
    exec (assign 1 2 "B"%char) imap0 = Some s' /\
    canonical (m_valBegin s') (m_map s').
Proof.
  assert (Hdef : m_map imap0 = [] -> 1 < 2 -> "B"%char <> m_valBegin imap0)
    by (intros _ _; discriminate).
  split; [exact I|]. split; [exact I|]. split; [exact Hdef|].
  apply (assign_keeps_canonical imap0 1 2 "B"%char); [exact I|exact I|exact Hdef].
Defined.

Lemma assign_nonempty_redundant_witness :
  ordered (m_map imap_B) /\ m_map imap_B <> [] /\ 6 < 8 /\
  canonical (m_valBegin imap_B) (m_map imap_B) /\
  (forall k : K, 6 <= k < 8 -> eval (lookup k) imap_B = Some "B"%char) /\
  exec (assign 6 8 "B"%char) imap_B = Some imap_B.
Proof.
  split; [exact imap_B_ordered|]. split; [exact imap_B_nonempty|].
  split; [lia|]. split; [exact imap_B_canonical|].
  split; [exact imap_B_is_B|].
  apply (assign_nonempty_redundant imap_B 6 8 "B"%char);
    [exact imap_B_ordered|exact imap_B_nonempty|lia
    |exact imap_B_canonical|exact imap_B_is_B].
Defined.

Lemma assign_nonempty_redundant_length_witness :
  ordered (m_map imap_B) /\ m_map imap_B <> [] /\ 6 < 8 /\
  (forall k : K, 6 <= k < 8 -> eval (lookup k) imap_B = Some "B"%char) /\
  exists s', exec (assign 6 8 "B"%char) imap_B = Some s' /\
             (length (m_map s') <= length (m_map imap_B))%nat.
Proof.
  split; [exact imap_B_ordered|]. split; [exact imap_B_nonempty|].
  split; [lia|]. split; [exact imap_B_is_B|].
  apply (assign_nonempty_redundant_length imap_B 6 8 "B"%char);
    [exact imap_B_ordered|exact imap_B_nonempty|lia|exact imap_B_is_B].
Defined.

Lemma assign_twice_same_witness :
  ordered (m_map imap_B) /\ 7 < 12 /\
  (m_map imap_B = [] -> "C"%char <> m_valBegin imap_B) /\
  exists s',
    exec (assign 7 12 "C"%char) imap_B = Some s' /\
    (m_map s' <> [] -> exec (assign 7 12 "C"%char) s' = Some s').
Proof.
  assert (Hdef : m_map imap_B = [] -> "C"%char <> m_valBegin imap_B)
    by (intros _; discriminate).
  split; [exact imap_B_ordered|]. split; [lia|]. split; [exact Hdef|].
  apply (assign_twice_same imap_B 7 12 "C"%char);
    [exact imap_B_ordered|lia|exact Hdef].
Defined.

Lemma imap_B_keys_upto_11 : Forall (fun e => fst e <= 11) (m_map imap_B).
Proof. simpl. repeat constructor; simpl; lia. Defined.

Lemma lookup_past_last_boundary_witness :
  reachable imap_B /\
  Forall (fun e => fst e <= 11) (m_map imap_B) /\
  eval (lookup 11) imap_B = Some (m_valBegin imap_B).
Proof.
  split; [exact imap_B_reachable|]. split; [exact imap_B_keys_upto_11|].
  apply (lookup_past_last_boundary imap_B 11);
    [exact imap_B_reachable|exact imap_B_keys_upto_11].
Defined.

Lemma canonical_table_unique_witness :
  ordered (m_map imap_B) /\
  canonical (m_valBegin imap_B) (m_map imap_B) /\
  (forall k : K,
     eval (lookup k) imap_B
     = eval (lookup k)
         (Build_interval_map "A"%char [(5, "B"%char); (10, "A"%char)])) /\
  imap_B = Build_interval_map "A"%char [(5, "B"%char); (10, "A"%char)].
Proof.
  split; [exact imap_B_ordered|]. split; [exact imap_B_canonical|].
  split; [reflexivity|].
  apply (canonical_table_unique imap_B
           (Build_interval_map "A"%char [(5, "B"%char); (10, "A"%char)]));
    [exact imap_B_ordered|exact imap_B_ordered
    |exact imap_B_canonical|exact imap_B_canonical
    |reflexivity|reflexivity].
Defined.

Lemma disjoint_assigns_commute_witness :
  ordered (m_map imap_B) /\ (3 <= 7 \/ 9 <= 1) /\
  exists s12 s21,
    exec (assign 1 3 "X"%char ;; assign 7 9 "Y"%char) imap_B = Some s12 /\
    exec (assign 7 9 "Y"%char ;; assign 1 3 "X"%char) imap_B = Some s21 /\
    forall k : K, eval (lookup k) s12 = eval (lookup k) s21.
Proof.
  assert (Hdis : 3 <= 7 \/ 9 <= 1) by (left; lia).
  split; [exact imap_B_ordered|]. split; [exact Hdis|].
  apply (disjoint_assigns_commute imap_B 1 3 7 9 "X"%char "Y"%char);
    [exact imap_B_ordered|exact Hdis].
Defined.

Lemma lookup_at_stored_boundary_witness :
  ordered (m_map imap_B) /\ In (5, "B"%char) (m_map imap_B) /\
  eval (lookup 5) imap_B = Some "B"%char.
Proof.
  assert (Hin : In (5, "B"%char) (m_map imap_B)) by (left; reflexivity).
  split; [exact imap_B_ordered|]. split; [exact Hin|].
  apply (lookup_at_stored_boundary imap_B 5 "B"%char);
    [exact imap_B_ordered|exact Hin].
Defined.

Lemma imap_B_keys_5_10 :
  Forall (fun e => 5 <= fst e <= 10) (m_map imap_B).
Proof. simpl. repeat constructor; simpl; lia. Defined.

Lemma assign_default_over_all_clears_witness :
  reachable imap_B /\ m_map imap_B <> [] /\ 5 < 10 /\
  Forall (fun e => 5 <= fst e <= 10) (m_map imap_B) /\
  exec (assign 5 10 (m_valBegin imap_B)) imap_B
  = Some (construct (m_valBegin imap_B)).
Proof.
  split; [exact imap_B_reachable|]. split; [exact imap_B_nonempty|].
  split; [lia|]. split; [exact imap_B_keys_5_10|].
  apply (assign_default_over_all_clears imap_B 5 10);
    [exact imap_B_reachable|exact imap_B_nonempty|lia|exact imap_B_keys_5_10].
Defined.
